(** * mt174: the meter handshake, the datablock parser and the scheduler

    A shallow embedding of [mt174.py].  Python [bytes] are lists of
    [Byte.byte], Python [str] values are lists of [ascii] characters,
    exceptions are an inductive type and every call that touches the
    serial line or the outside world threads its state explicitly. *)

From Stdlib Require Import List String Ascii Bool Arith NArith ZArith Lia.
From Stdlib Require Import Strings.Byte.
Import ListNotations.

Set Implicit Arguments.

(** ** Python values *)

Definition bytes := list byte.
Definition str := list ascii.

(** A [str] literal. *)
Definition s (x : string) : str := list_ascii_of_string x.

(** [ord(b)] for a [bytes] object of length one. *)
Definition ord (b : byte) : N := Byte.to_N b.

(** The exceptions the program meets.  [KeyboardInterrupt] and
    [SystemExit] derive from [BaseException] only; every other
    constructor is a subclass of [Exception]. *)
Inductive exn : Type :=
| KeyboardInterrupt
| SystemExit
| Exception (msg : string)
| TypeError (msg : string)
| UnicodeDecodeError
| SerialException (msg : string)
| OSError (msg : string).

(** [isinstance(e, Exception)] *)
Definition isinstance_Exception (e : exn) : bool :=
  match e with
  | KeyboardInterrupt | SystemExit => false
  | _ => true
  end.

Inductive result (A : Type) : Type :=
| Ok (a : A)
| Raise (e : exn).
Arguments Ok {A} a.
Arguments Raise {A} e.

(** ** A state-and-exception monad

    [M St A] is a computation over a state [St] that returns an [A] or
    raises.  The state survives a raise: what was written to the line
    before the exception stays written. *)

Definition M (St A : Type) : Type := St -> result A * St.

Definition ret {St A} (a : A) : M St A := fun st => (Ok a, st).

Definition raise {St A} (e : exn) : M St A := fun st => (Raise e, st).

Definition bind {St A B} (m : M St A) (k : A -> M St B) : M St B :=
  fun st =>
    match m st with
    | (Ok a, st') => k a st'
    | (Raise e, st') => (Raise e, st')
    end.

(** [try: body except: handler]; the handler sees the exception and
    decides by its class. *)
Definition try_except {St A} (body : M St A) (handler : exn -> M St A) : M St A :=
  fun st =>
    match body st with
    | (Ok a, st') => (Ok a, st')
    | (Raise e, st') => handler e st'
    end.

(** [try: body finally: cleanup]; an exception of the cleanup replaces
    the outcome of the body. *)
Definition try_finally {St A} (body : M St A) (cleanup : M St unit) : M St A :=
  fun st =>
    match body st with
    | (r, st') =>
        match cleanup st' with
        | (Ok _, st'') => (r, st'')
        | (Raise e, st'') => (Raise e, st'')
        end
    end.

Declare Scope py_scope.
Delimit Scope py_scope with py.
Notation "x <- m ;; k" := (bind m (fun x => k))
  (at level 61, m at next level, right associativity) : py_scope.
Notation "m ;; k" := (bind m (fun _ => k))
  (at level 61, right associativity) : py_scope.
Local Open Scope py_scope.

(** ** The serial line *)

(** What one [read(1)] on the port finds: a byte, nothing within the
    timeout, or an exception of the driver or a signal. *)
Inductive rx_event : Type :=
| RxByte (b : byte)
| RxTimeout
| RxError (e : exn).

(** Operations on the port, as the outside sees them. *)
Inductive port_op : Type :=
| OpOpen
| OpWrite (data : bytes)
| OpDelay
| OpWarning (msg : string)
| OpClose.

(** The port behind [serial.Serial(port=..., baudrate=9600, bytesize=7,
    parity='E', stopbits=1, timeout=1.5)].  [rx] lists what successive
    one-byte reads will find; once it is exhausted every read times out.
    [open_error] is what the constructor raises, if anything. *)
Record Serial : Type := mkSerial {
  is_open : bool;
  open_error : option exn;
  rx : list rx_event;
  ops : list port_op
}.

Definition set_rx (p : Serial) (l : list rx_event) : Serial :=
  mkSerial (is_open p) (open_error p) l (ops p).

Definition log_op (o : port_op) (p : Serial) : Serial :=
  mkSerial (is_open p) (open_error p) (rx p) (ops p ++ [o]).

Definition set_open (b : bool) (p : Serial) : Serial :=
  mkSerial b (open_error p) (rx p) (ops p).

Module MT174.

Definition ACK : byte := x06.
Definition STX : byte := x02.
Definition ETX : byte := x03.

(** The port once it is open. *)
Definition opened (p : Serial) : Serial := log_op OpOpen (set_open true p).

(** [serial.Serial(port = ...)]: the constructor opens the port. *)
Definition serial_Serial : M Serial unit :=
  fun p =>
    match open_error p with
    | Some e => (Raise e, p)
    | None => (Ok tt, opened p)
    end.

Definition write (data : bytes) : M Serial unit :=
  fun p => (Ok tt, log_op (OpWrite data) p).

(** [MT174.__delay()] *)
Definition delay : M Serial unit :=
  fun p => (Ok tt, log_op OpDelay p).

Definition warning (msg : string) : M Serial unit :=
  fun p => (Ok tt, log_op (OpWarning msg) p).

Definition isOpen : M Serial bool :=
  fun p => (Ok (is_open p), p).

Definition close : M Serial unit :=
  fun p => (Ok tt, log_op OpClose (set_open false p)).

(** [mt174.read()]: at most one byte. *)
Definition recv (l : list rx_event) : result bytes * list rx_event :=
  match l with
  | [] => (Ok [], [])
  | RxByte b :: l' => (Ok [b], l')
  | RxTimeout :: l' => (Ok [], l')
  | RxError e :: l' => (Raise e, l')
  end.

(** An operation on the receive queue, run on the port. *)
Definition on_rx {A} (f : list rx_event -> result A * list rx_event) : M Serial A :=
  fun p => let (r, l) := f (rx p) in (r, set_rx p l).

Definition read1 : M Serial bytes := on_rx recv.

(** [mt174.readline()]: [io.IOBase.readline] reads one byte at a time
    and stops after a line feed or at the first empty read. *)
Fixpoint readline_from (acc : bytes) (l : list rx_event) : result bytes * list rx_event :=
  match l with
  | [] => (Ok acc, [])
  | RxByte b :: l' =>
      if Byte.eqb b x0a then (Ok (acc ++ [b]), l') else readline_from (acc ++ [b]) l'
  | RxTimeout :: l' => (Ok acc, l')
  | RxError e :: l' => (Raise e, l')
  end.

Definition readline : M Serial bytes := on_rx (readline_from []).

(** [b'/' in message] and [message.index(b'/')] *)
Definition contains (b : byte) (message : bytes) : bool :=
  existsb (Byte.eqb b) message.

Fixpoint index (b : byte) (message : bytes) : nat :=
  match message with
  | [] => 0
  | x :: rest => if Byte.eqb x b then 0 else S (index b rest)
  end.

(** [message[0] != ord('/')] on a non-empty message. *)
Definition starts_with (b : byte) (message : bytes) : bool :=
  match message with
  | x :: _ => Byte.eqb x b
  | [] => false
  end.

(** Lines 98-102: drop the garbage bytes in front of the first slash. *)
Definition strip_garbage (message : bytes) : bytes :=
  if negb (starts_with "/"%byte message) && contains "/"%byte message
  then skipn (index "/"%byte message) message
  else message.

(** Steps 1 to 3 of [read]: the request, the identification and the
    acknowledgement. *)
Definition handshake : M Serial unit :=
  write [x2f; x3f; x21; x0d; x0a] ;;
  delay ;;
  message <- readline ;;
  if Nat.eqb (List.length message) 0
  then raise (Exception "Empty string instead of identification")
  else
    let message := strip_garbage message in
    if negb (starts_with "/"%byte message)
    then raise (Exception "No identification message")
    else if Nat.ltb (List.length message) 7
    then raise (Exception "Identification message too short")
    else
      write (ACK :: [x30; x30; x30; x0d; x0a]) ;;
      delay.

(** The first [while] loop, lines 121-126: up to the exclamation mark
    every byte goes into the checksum and into the datablock. *)
Fixpoint body_loop (l : list rx_event) (curr_byte : byte) (bcc : N) (datablock : bytes)
  : result (byte * N * bytes) * list rx_event :=
  if Byte.eqb curr_byte "!"%byte then (Ok (curr_byte, bcc, datablock), l)
  else
    let bcc := N.lxor bcc (ord curr_byte) in
    let datablock := datablock ++ [curr_byte] in
    match l with
    | [] => (Raise (Exception "Empty string instead of data"), [])
    | ev :: l' =>
        match recv [ev] with
        | (Ok [b], _) => body_loop l' b bcc datablock
        | (Ok _, _) => (Raise (Exception "Empty string instead of data"), l')
        | (Raise e, _) => (Raise e, l')
        end
    end.

(** The second [while] loop, lines 127-131: up to the end marker every
    byte goes into the checksum only. *)
Fixpoint tail_loop (l : list rx_event) (curr_byte : byte) (bcc : N)
  : result (byte * N) * list rx_event :=
  if Byte.eqb curr_byte ETX then (Ok (curr_byte, bcc), l)
  else
    let bcc := N.lxor bcc (ord curr_byte) in
    match l with
    | [] => (Raise (Exception "Empty string instead of data"), [])
    | ev :: l' =>
        match recv [ev] with
        | (Ok [b], _) => tail_loop l' b bcc
        | (Ok _, _) => (Raise (Exception "Empty string instead of data"), l')
        | (Raise e, _) => (Raise e, l')
        end
    end.

(** Lines 116-132: everything between the start marker and the end
    marker.  Returns the checksum with the end marker folded in and the
    datablock. *)
Definition read_frame : M Serial (N * bytes) :=
  curr_byte <- read1 ;;
  match curr_byte with
  | [b] =>
      r1 <- on_rx (fun l => body_loop l b 0%N []) ;;
      let '(curr_byte, bcc, datablock) := r1 in
      r2 <- on_rx (fun l => tail_loop l curr_byte bcc) ;;
      let '(curr_byte, bcc) := r2 in
      ret (N.lxor bcc (ord curr_byte), datablock)
  | _ => raise (Exception "Empty string instead of data")
  end.

(** [datablock.decode('us-ascii')] *)
Definition decode_us_ascii (b : bytes) : result str :=
  if forallb (fun x => N.ltb (ord x) 128) b
  then Ok (map ascii_of_byte b)
  else Raise UnicodeDecodeError.

(** Step 4 of [read], lines 113-140. *)
Definition read_datablock : M Serial str :=
  first <- read1 ;;
  datablock <-
    (match first with
     | [b] =>
         if Byte.eqb b STX then
           fr <- read_frame ;;
           let '(bcc, datablock) := fr in
           curr_byte <- read1 ;;
           match curr_byte with
           | [c] =>
               if negb (N.eqb bcc (ord c))
               then raise (Exception "Result not OK, try again")
               else ret datablock
           | _ => raise (TypeError "ord() expected a character, but string of length 0 found")
           end
         else warning "No STX found, not handled" ;; ret []
     | _ => warning "No STX found, not handled" ;; ret []
     end) ;;
  fun p => (decode_us_ascii datablock, p).

(** [MT174.read] *)
Definition read : M Serial str :=
  serial_Serial ;;
  try_finally
    (handshake ;; read_datablock)
    (o <- isOpen ;; if (o : bool) then close else ret tt).

End MT174.

(** ** Regular expressions

    The fragment of Python's [re] that [DATABLOCK_REGEX] uses, with the
    backtracking order of the engine: a match is tried the way the
    pattern is written, greedy repetitions give back one character at a
    time and an optional part is tried before it is skipped. *)

Module Re.

Inductive regex : Type :=
| Chr (c : ascii)                 (* a literal character *)
| Cls (p : ascii -> bool)         (* a character class *)
| Cat (r1 r2 : regex)             (* r1 r2 *)
| Opt (r : regex)                 (* (?:r)? *)
| Plus (p : ascii -> bool)        (* c+ for a class c *)
| Grp (n : nat) (r : regex).      (* the n-th capturing group *)

(** The text of the groups matched so far. *)
Definition groups := nat -> option str.

Definition no_groups : groups := fun _ => None.

Definition set_group (n : nat) (v : str) (g : groups) : groups :=
  fun k => if Nat.eqb k n then Some v else g k.

(** What was consumed between the input [t] and the rest [t']. *)
Definition consumed (t t' : str) : str :=
  firstn (List.length t - List.length t') t.

(** The rests after one or more characters of the class, longest
    repetition first. *)
Fixpoint plus_rests (p : ascii -> bool) (t : str) : list str :=
  match t with
  | c :: t' => if p c then plus_rests p t' ++ [t'] else []
  | [] => []
  end.

(** Every way [r] matches a prefix of [t], in the order the engine
    tries them, as the rest of the input and the groups. *)
Fixpoint matches (r : regex) (t : str) (g : groups) : list (str * groups) :=
  match r with
  | Chr c =>
      match t with
      | x :: t' => if Ascii.eqb x c then [(t', g)] else []
      | [] => []
      end
  | Cls p =>
      match t with
      | x :: t' => if p x then [(t', g)] else []
      | [] => []
      end
  | Cat r1 r2 => flat_map (fun m => matches r2 (fst m) (snd m)) (matches r1 t g)
  | Opt r => matches r t g ++ [(t, g)]
  | Plus p => map (fun t' => (t', g)) (plus_rests p t)
  | Grp n r => map (fun m => (fst m, set_group n (consumed t (fst m)) (snd m))) (matches r t g)
  end.

(** [pattern.match(line)]: the first match at the start of the line. *)
Definition re_match (r : regex) (line : str) : option groups :=
  match matches r line no_groups with
  | [] => None
  | m :: _ => Some (snd m)
  end.

(** [match.group(n)] of a group that took part in the match. *)
Definition group (g : groups) (n : nat) : str :=
  match g n with
  | Some v => v
  | None => []
  end.

End Re.

(** ** Characters of a [str]

    A character is its code point; the model covers the code points up
    to 255, which is more than a decoded datablock can hold. *)

(** [c.isspace()], which is also what [str.split()] and the class \s of
    a [str] pattern use. *)
Definition isspace (c : ascii) : bool :=
  let n := N_of_ascii c in
  ((9 <=? n) && (n <=? 13) || (28 <=? n) && (n <=? 32) || (n =? 133) || (n =? 160))%N.

(** The class \d *)
Definition isdecimal (c : ascii) : bool :=
  let n := N_of_ascii c in ((48 <=? n) && (n <=? 57))%N.

(** The class \S *)
Definition nonspace (c : ascii) : bool := negb (isspace c).

(** The dot, which matches everything but a line feed. *)
Definition dot (c : ascii) : bool := negb (N_of_ascii c =? 10)%N.

(** [data.split()]: the maximal runs of characters that are not
    whitespace; [word] is the run being read. *)
Fixpoint split_from (word : str) (data : str) : list str :=
  match data with
  | [] => match word with [] => [] | _ => [word] end
  | c :: data' =>
      if isspace c
      then match word with
           | [] => split_from [] data'
           | _ => word :: split_from [] data'
           end
      else split_from (word ++ [c]) data'
  end.

Definition split (data : str) : list str := split_from [] data.

(** ** Dictionaries

    A Python [dict] keeps its keys in the order of their first
    insertion; an assignment to a key that is present replaces the value
    where the key stands. *)

Fixpoint str_eqb (a b : str) : bool :=
  match a, b with
  | [], [] => true
  | x :: a', y :: b' => Ascii.eqb x y && str_eqb a' b'
  | _, _ => false
  end.

Definition dict := list (str * str).

(** [d[k] = v] *)
Fixpoint dict_set (k v : str) (d : dict) : dict :=
  match d with
  | [] => [(k, v)]
  | (k', v') :: d' =>
      if str_eqb k' k then (k', v) :: d' else (k', v') :: dict_set k v d'
  end.

(** [d.get(k)] *)
Fixpoint dict_get (k : str) (d : dict) : option str :=
  match d with
  | [] => None
  | (k', v') :: d' => if str_eqb k' k then Some v' else dict_get k d'
  end.

Definition keys (d : dict) : list str := map fst d.

Module Parser.
Import Re.

(** [(?:\d-\d:)?(\S+\.\S+\.\d+)(?:\*255)?\((.+)\)] *)
Definition DATABLOCK_REGEX : regex :=
  Cat (Opt (Cat (Cls isdecimal) (Cat (Chr "-") (Cat (Cls isdecimal) (Chr ":")))))
 (Cat (Grp 1 (Cat (Plus nonspace) (Cat (Chr ".")
             (Cat (Plus nonspace) (Cat (Chr ".") (Plus isdecimal))))))
 (Cat (Opt (Cat (Chr "*") (Cat (Chr "2") (Cat (Chr "5") (Chr "5")))))
 (Cat (Chr "(")
 (Cat (Grp 2 (Plus dot))
      (Chr ")"))))).

(** The body of the loop of [datablock_to_dict], lines 153-155. *)
Definition parse_line (data_dict : dict) (line : str) : dict :=
  match re_match DATABLOCK_REGEX line with
  | Some m => dict_set (group m 1) (group m 2) data_dict
  | None => data_dict
  end.

(** [MT174.datablock_to_dict] *)
Definition datablock_to_dict (data : str) : dict :=
  fold_left parse_line (split data) [].

End Parser.

(** ** The scheduler

    The scheduler is polymorphic in what it drives: any object with a
    [read] method, any sequence of processors, the clock of the [time]
    module.  [W] is the state of everything outside it and [T] the type
    of the clock's readings, with the subtraction and the comparison the
    run loop applies to them. *)

(** The [time] module and the arithmetic of its readings:
    [time.time()], [time.sleep(Scheduler.SLEEP_TIME)], the literal [0],
    the subtraction and the comparison [<]. *)
Record Time (W T : Type) : Type := mkTime {
  time_time : W -> T * W;
  time_sleep : M W unit;
  t_zero : T;
  t_sub : T -> T -> T;
  t_lt : T -> T -> bool
}.

Section Scheduler.

Variable W : Type.
Variable T : Type.
Variable time : Time W T.

(** The base class [Processor]: a name and the [process] method the
    subclasses override. *)
Record Processor : Type := mkProcessor {
  get_name : string;
  process : T -> str -> M W unit
}.

Record Scheduler : Type := mkScheduler {
  mt174_read : M W str;
  processors : list Processor;
  interval : T
}.

(** What a run of the scheduler does, in order: the calls it makes with
    their outcome and the lines it logs. *)
Inductive event : Type :=
| EvRead (r : result str)
| EvProcess (name : string) (timestamp : T) (data : str) (r : result unit)
| EvSleep (r : result unit)
| EvLog (level msg : string).

Record St : Type := mkSt {
  world : W;
  trace : list event
}.

Definition emit (ev : event) (st : St) : St :=
  mkSt (world st) (trace st ++ [ev]).

(** A call into the world, recorded with its outcome. *)
Definition call {A} (f : M W A) (ev : result A -> event) : M St A :=
  fun st => let (r, w) := f (world st) in (r, emit (ev r) (mkSt w (trace st))).

Definition clock (st : St) : T * St :=
  let (t, w) := time_time time (world st) in (t, mkSt w (trace st)).

Definition now : M St T :=
  fun st => let (t, st') := clock st in (Ok t, st').

Definition logging (level msg : string) : M St unit :=
  fun st => (Ok tt, emit (EvLog level msg) st).

(** [for x in l: body] *)
Fixpoint for_each {A} (l : list A) (body : A -> M St unit) : M St unit :=
  match l with
  | [] => ret tt
  | x :: l' => body x ;; for_each l' body
  end.

(** The two [except] clauses of a [try] of [execute]:
    [except KeyboardInterrupt: raise] and
    [except Exception: logging.exception(msg)]; anything else passes. *)
Definition reraise_or_log (msg : string) (e : exn) : M St unit :=
  match e with
  | KeyboardInterrupt => raise e
  | _ => if isinstance_Exception e then logging "exception" msg else raise e
  end.

(** One processor, lines 207-215. *)
Definition run_processor (timestamp : T) (data : str) (processor : Processor) : M St unit :=
  try_except
    (_begin <- now ;;
     call (process processor timestamp data)
          (EvProcess (get_name processor) timestamp data) ;;
     _end <- now ;;
     logging "info" "Processor (%s) in %.3fs")
    (reraise_or_log "Error in processor").

(** [Scheduler.execute] *)
Definition execute (self : Scheduler) (timestamp : T) : M St unit :=
  try_except
    (_begin <- now ;;
     data <- call (mt174_read self) EvRead ;;
     _end <- now ;;
     logging "info" "Read data in %.3fs" ;;
     logging "debug" "Data: %s" ;;
     for_each (processors self) (run_processor timestamp data))
    (reraise_or_log "Error in meter reader").

(** The [while True] loop of [run], lines 224-228, which only an
    exception leaves.  One unit of fuel is one test of the inner loop's
    condition: either the interval has not elapsed and the loop sleeps,
    or it has and a cycle is executed with the new baseline.  The result
    is the exception that left the loop, or [None] while it still
    runs. *)
Fixpoint while_true (fuel : nat) (self : Scheduler) (start : T) (st : St)
  : option exn * St :=
  match fuel with
  | 0 => (None, st)
  | S fuel' =>
      let (t, st1) := clock st in
      if t_lt time (t_sub time t start) (interval self) then
        match call (time_sleep time) EvSleep st1 with
        | (Ok _, st2) => while_true fuel' self start st2
        | (Raise e, st2) => (Some e, st2)
        end
      else
        let (start', st2) := clock st1 in
        match execute self start' st2 with
        | (Ok _, st3) => while_true fuel' self start' st3
        | (Raise e, st3) => (Some e, st3)
        end
  end.

(** [Scheduler.run]: the loop inside
    [try: ... except KeyboardInterrupt: return 0
     except Exception: logging.exception(...); return 1]. *)
Definition run (fuel : nat) (self : Scheduler) (st : St) : option (result Z) * St :=
  match while_true fuel self (t_zero time) st with
  | (None, st') => (None, st')
  | (Some KeyboardInterrupt, st') => (Some (Ok 0%Z), st')
  | (Some e, st') =>
      if isinstance_Exception e
      then (Some (Ok 1%Z), emit (EvLog "exception" "Error. Exiting...") st')
      else (Some (Raise e), st')
  end.

(** The processor calls of a trace, in order. *)
Fixpoint calls (tr : list event) : list (string * T * str) :=
  match tr with
  | [] => []
  | EvProcess name timestamp data _ :: tr' => (name, timestamp, data) :: calls tr'
  | _ :: tr' => calls tr'
  end.

(** *** Reading a trace *)

(** What the call of one processor with outcome [r] leaves in the
    trace: the call and the line that is logged after it. *)
Definition processor_events (timestamp : T) (data : str)
           (pr : Processor * result unit) : list event :=
  EvProcess (get_name (fst pr)) timestamp data (snd pr)
  :: match snd pr with
     | Ok _ => [EvLog "info" "Processor (%s) in %.3fs"]
     | Raise e =>
         if isinstance_Exception e
         then [EvLog "exception" "Error in processor"]
         else []
     end.

(** An outcome that lets [execute] go on: a return, or an exception
    that [except Exception] catches. *)
Definition benign {A} (r : result A) : Prop :=
  match r with
  | Ok _ => True
  | Raise e => isinstance_Exception e = true
  end.

(** Processors that never raise anything but an [Exception]. *)
Definition only_exceptions (ps : list Processor) : Prop :=
  forall p, In p ps ->
    forall timestamp data w, benign (fst (process p timestamp data w)).

(** The exception with which an event ends the run loop, if it does:
    any exception of the sleep, and an exception of the reader or of a
    processor that [except Exception] lets pass. *)
Definition fatal (ev : event) : option exn :=
  match ev with
  | EvSleep (Raise e) => Some e
  | EvRead (Raise e) | EvProcess _ _ _ (Raise e) =>
      if isinstance_Exception e then None else Some e
  | _ => None
  end.

(** The exception a call raised, if it did. *)
Definition raised_by (ev : event) : option exn :=
  match ev with
  | EvSleep (Raise e) | EvRead (Raise e) | EvProcess _ _ _ (Raise e) => Some e
  | _ => None
  end.

(** A stretch of the trace in which nothing ends the loop. *)
Definition quiet (new : list event) : Prop :=
  Forall (fun ev => fatal ev = None) new.

(** A stretch of the trace that goes with leaving the loop by [o]: quiet
    up to the event that raised the exception, which is the last. *)
Definition leaves (o : option exn) (new : list event) : Prop :=
  match o with
  | None => quiet new
  | Some e => exists new0 ev, new = new0 ++ [ev] /\ quiet new0 /\ fatal ev = Some e
  end.

Definition raised {A} (r : result A) : option exn :=
  match r with
  | Ok _ => None
  | Raise e => Some e
  end.

(** The lines the reader's success logs before the processors run. *)
Definition read_events (data : str) : list event :=
  [EvRead (Ok data); EvLog "info" "Read data in %.3fs"; EvLog "debug" "Data: %s"].

(** The world in which the loop over the processors of a cycle starts:
    after [begin], the reading and [end] of lines 201-203. *)
Definition read_world (self : Scheduler) (st : St) : W :=
  snd (time_time time (snd (mt174_read self (world (snd (clock st)))))).

(** What the [process] methods themselves answer in a cycle, and the
    world they leave: each is called in the world the one before it
    left, after the clock has been read for [begin]; the clock is read
    again for [end] only after a call that returns. *)
Fixpoint outcomes (timestamp : T) (data : str) (ps : list Processor) (w : W)
  : list (result unit) * W :=
  match ps with
  | [] => ([], w)
  | p :: ps' =>
      let (r, w2) := process p timestamp data (snd (time_time time w)) in
      let (rs, w') :=
        outcomes timestamp data ps'
          match r with
          | Ok _ => snd (time_time time w2)
          | Raise _ => w2
          end in
      (r :: rs, w')
  end.

(** What [run] does with the exception that left its loop. *)
Definition run_outcome (e : exn) : result Z :=
  match e with
  | KeyboardInterrupt => Ok 0%Z
  | _ => if isinstance_Exception e then Ok 1%Z else Raise e
  end.

End Scheduler.

Arguments EvRead {T} r.
Arguments EvSleep {T} r.
Arguments EvLog {T} level msg.
Arguments read_events {T} data.

(** ** Vocabulary of the properties *)

Module MT174Spec.
Import MT174.

(** The exclusive-or of the bytes of [l], from [acc]. *)
Definition xor_from (acc : N) (l : bytes) : N :=
  fold_left (fun a b => N.lxor a (ord b)) l acc.

Definition xor_bytes (l : bytes) : N := xor_from 0%N l.

(** A computation that neither opens nor closes the port. *)
Definition keeps_port {A} (m : M Serial A) : Prop :=
  forall p,
    is_open (snd (m p)) = is_open p /\
    exists mid,
      ops (snd (m p)) = ops p ++ mid /\ ~ In OpOpen mid /\ ~ In OpClose mid.

(** A line on which the driver raises nothing but [Exception]: no
    signal arrives during a read. *)
Definition calm (l : list rx_event) : Prop :=
  Forall (fun ev => match ev with
                    | RxError e => isinstance_Exception e = true
                    | _ => True
                    end) l.

(** A computation that keeps a calm line calm and raises nothing but
    [Exception] on it. *)
Definition tame {A} (m : M Serial A) : Prop :=
  forall p,
    calm (rx p) ->
    calm (rx (snd (m p))) /\
    forall e, fst (m p) = Raise e -> isinstance_Exception e = true.

End MT174Spec.

Module ParserSpec.
Import Re Parser.

(** The matching lines of a list of lines, in order, as their code and
    their value. *)
Definition parsed_pairs (lines : list str) : list (str * str) :=
  flat_map (fun line =>
              match re_match DATABLOCK_REGEX line with
              | Some m => [(group m 1, group m 2)]
              | None => []
              end) lines.

(** The assignments [d[code] = value] of a list of pairs, in order. *)
Definition assign_all (d : dict) (pairs : list (str * str)) : dict :=
  fold_left (fun d kv => dict_set (fst kv) (snd kv) d) pairs d.

(** [l] without its repetitions: every element stays where it first
    occurs. *)
Fixpoint uniq (l : list str) : list str :=
  match l with
  | [] => []
  | x :: l' => x :: filter (fun y => negb (str_eqb x y)) (uniq l')
  end.

(** A line break of a payload: the meter ends its lines with a carriage
    return and a line feed. *)
Definition is_line_break (c : ascii) : bool :=
  let n := N_of_ascii c in ((n =? 10) || (n =? 13))%N.

(** The lines of a payload as the description of the datablock format
    has them, one field per line: the maximal runs of characters between
    line breaks, blank lines left out; [line] is the run being read. *)
Fixpoint lines_from (line : str) (data : str) : list str :=
  match data with
  | [] => match line with [] => [] | _ => [line] end
  | c :: data' =>
      if is_line_break c
      then match line with
           | [] => lines_from [] data'
           | _ => line :: lines_from [] data'
           end
      else lines_from (line ++ [c]) data'
  end.

Definition spec_lines (data : str) : list str := lines_from [] data.

End ParserSpec.

(** ** Sample lines, payloads and schedulers *)

Module Samples.
Import MT174.

Definition crlf : bytes := [x0d; x0a].

Definition sample_ident : bytes := list_byte_of_string "/ISk5MT174-0001" ++ crlf.

Definition sample_body : bytes :=
  list_byte_of_string "1-0:1.8.0*255(0692930.505*kWh)" ++ crlf.

(** A port that is closed and will deliver [l]. *)
Definition port_with (l : list rx_event) : Serial := mkSerial false None l [].

(** The meter answers with its identification and one frame whose check
    character is [c]. *)
Definition sample_port (c : byte) : Serial :=
  port_with (map RxByte (sample_ident ++ STX :: sample_body
                          ++ "!"%byte :: crlf ++ [ETX; c])).

(** Two garbage bytes, then the identification, then silence. *)
Definition noisy_port : Serial :=
  port_with (map RxByte ([x00; x7f] ++ sample_ident)).

(** The identification, the start of a frame, and then a signal. *)
Definition interrupted_port : Serial :=
  port_with (map RxByte (sample_ident ++ [STX; x31]) ++ [RxError KeyboardInterrupt]).

(** Three lines, the first and the last with the same code, and a line
    that does not match in between. *)
Definition repeated_code : str :=
  s "1-0:1.8.0*255(1)" ++ ["010"%char] ++ s "garbage" ++ ["010"%char]
  ++ s "1-0:2.8.0*255(5)" ++ ["010"%char] ++ s "1.8.0(7)".

(** Two lines with the same code, the second with a space in its
    value. *)
Definition spaced_value : str :=
  s "1.8.0(1)" ++ ["010"%char] ++ s "1.8.0(2 3)".

(** The two lines of C2, as the meter sends them. *)
Definition empty_value_255 : str := s "0-0:C.51.4*255()".
Definition empty_value_01 : str := s "0-0:C.51.4*01()".
Definition empty_value_lines : str :=
  empty_value_255 ++ ["013"%char; "010"%char] ++ empty_value_01
  ++ ["013"%char; "010"%char].

(** A clock that stands at 100 and a sleep that returns. *)
Definition steady_time : Time Serial Z :=
  mkTime (fun w => (100%Z, w)) (fun w => (Ok tt, w)) 0%Z Z.sub Z.ltb.

(** A clock that stands at 0 and a sleep that a signal interrupts. *)
Definition interrupted_time : Time Serial Z :=
  mkTime (fun w => (0%Z, w)) (fun w => (Raise KeyboardInterrupt, w)) 0%Z Z.sub Z.ltb.

(** A clock that stands at 0 and a sleep that fails. *)
Definition broken_time : Time Serial Z :=
  mkTime (fun w => (0%Z, w)) (fun w => (Raise (OSError "sleep length must be non-negative"), w))
         0%Z Z.sub Z.ltb.

(** A processor that fails and one that does not. *)
Definition publisher : Processor Serial Z :=
  mkProcessor "publisher" (fun _ _ w => (Raise (OSError "broker unreachable"), w)).

Definition recorder : Processor Serial Z :=
  mkProcessor "recorder" (fun _ _ w => (Ok tt, w)).

Definition sample_scheduler : Scheduler Serial Z :=
  mkScheduler MT174.read [publisher; recorder] 60%Z.

Definition at_start (p : Serial) : St Serial Z := mkSt p [].

End Samples.

(** ** More vocabulary and samples *)

Module MT174More.
Import MT174.

(** A line on which the next read finds nothing. *)
Definition silent (l : list rx_event) : Prop :=
  l = [] \/ exists l', l = RxTimeout :: l'.





End MT174More.

Module ParserMore.
Import Re Parser.

(** The optional classifier in front of a code: one digit, a dash, one
    digit, a colon. *)
Definition classifier (pre : str) : Prop :=
  pre = [] \/
  exists d1 d2, isdecimal d1 = true /\ isdecimal d2 = true /\
                pre = [d1; "-"%char; d2; ":"%char].

(** The shape of a code: two runs without whitespace and a run of
    decimal digits, with a dot after each of the first two. *)
Definition code_shape (code : str) : Prop :=
  exists a b d,
    code = a ++ "."%char :: b ++ "."%char :: d /\
    a <> [] /\ Forall (fun c => nonspace c = true) a /\
    b <> [] /\ Forall (fun c => nonspace c = true) b /\
    d <> [] /\ Forall (fun c => isdecimal c = true) d.

(** The optional channel suffix. *)
Definition channel (suf : str) : Prop := suf = [] \/ suf = s "*255".

(** A field as the meter prints it. *)
Definition field_line (pre code suf value : str) : str :=
  pre ++ code ++ suf ++ "("%char :: value ++ [")"%char].

(** The classifier part of the pattern: a digit, a dash, a digit, a
    colon. *)
Definition CLASSIFIER : regex :=
  Cat (Cls isdecimal) (Cat (Chr "-") (Cat (Cls isdecimal) (Chr ":"))).

(** The code part of the pattern. *)
Definition CODE : regex :=
  Cat (Plus nonspace) (Cat (Chr ".")
      (Cat (Plus nonspace) (Cat (Chr ".") (Plus isdecimal)))).

(** What follows the classifier in the pattern. *)
Definition FIELD : regex :=
  Cat (Grp 1 CODE)
 (Cat (Opt (Cat (Chr "*") (Cat (Chr "2") (Cat (Chr "5") (Chr "5")))))
 (Cat (Chr "(")
 (Cat (Grp 2 (Plus dot))
      (Chr ")")))).

(** A code of the plain kind: of the shape of a code, without a bracket
    and without a colon. *)
Definition plain_code (code : str) : Prop :=
  code_shape code /\ ~ In "("%char code /\ ~ In ":"%char code.

End ParserMore.

Module SchedulerMore.
Import MT174 Samples.




End SchedulerMore.

(** * Properties *)

(** ** The frame and its checksum *)

Module MT174Facts.
Import MT174 MT174Spec Samples.

Lemma byte_eqb_eq (a b : byte) : Byte.eqb a b = true <-> a = b.
Proof.
  split.
  - apply Byte.byte_dec_bl.
  - apply Byte.byte_dec_lb.
Qed.

Lemma byte_eqb_neq (a b : byte) : Byte.eqb a b = false <-> a <> b.
Proof.
  rewrite <- byte_eqb_eq. destruct (Byte.eqb a b); split; congruence.
Qed.

Lemma byte_eqb_refl (a : byte) : Byte.eqb a a = true.
Proof. now apply byte_eqb_eq. Qed.

Lemma xor_from_app acc l1 l2 :
  xor_from acc (l1 ++ l2) = xor_from (xor_from acc l1) l2.
Proof. unfold xor_from. now rewrite fold_left_app. Qed.

(** The first loop stops on the first exclamation mark and has taken
    every byte before it into the checksum and the datablock. *)
Lemma body_loop_frame (body : bytes) :
  forall x xs bcc datablock rest,
    ~ In "!"%byte body ->
    x :: xs = body ++ ["!"%byte] ->
    body_loop (map RxByte xs ++ rest) x bcc datablock
    = (Ok ("!"%byte, xor_from bcc body, datablock ++ body), rest).
Proof.
  induction body as [|b body IH]; intros x xs bcc datablock rest Hnot Hsplit.
  - simpl in Hsplit. injection Hsplit as Hx Hxs. subst x xs.
    destruct rest; simpl; now rewrite app_nil_r.
  - simpl in Hsplit. injection Hsplit as Hx Hxs. subst x xs.
    assert (Hb : Byte.eqb b "!"%byte = false).
    { apply byte_eqb_neq. intros ->. apply Hnot. now left. }
    destruct (body ++ ["!"%byte]) as [|y ys] eqn:Hys.
    { now destruct body. }
    simpl. rewrite Hb. simpl.
    rewrite (IH y ys (N.lxor bcc (ord b)) (datablock ++ [b]) rest).
    + now rewrite <- app_assoc.
    + intros Hin. apply Hnot. now right.
    + reflexivity.
Qed.

(** The second loop stops on the first end marker and has taken every
    byte before it into the checksum. *)
Lemma tail_loop_frame (pre : bytes) :
  forall x xs bcc rest,
    ~ In ETX pre ->
    x :: xs = pre ++ [ETX] ->
    tail_loop (map RxByte xs ++ rest) x bcc = (Ok (ETX, xor_from bcc pre), rest).
Proof.
  induction pre as [|b pre IH]; intros x xs bcc rest Hnot Hsplit.
  - simpl in Hsplit. injection Hsplit as Hx Hxs. subst x xs.
    now destruct rest.
  - simpl in Hsplit. injection Hsplit as Hx Hxs. subst x xs.
    assert (Hb : Byte.eqb b ETX = false).
    { apply byte_eqb_neq. intros ->. apply Hnot. now left. }
    destruct (pre ++ [ETX]) as [|y ys] eqn:Hys.
    { now destruct pre. }
    simpl. rewrite Hb. simpl.
    rewrite (IH y ys (N.lxor bcc (ord b)) rest).
    + reflexivity.
    + intros Hin. apply Hnot. now right.
    + reflexivity.
Qed.

(** Lines 116-132 on a frame: the checksum is the exclusive-or of every
    byte up to and including the end marker, the datablock is what
    stands before the exclamation mark. *)
Lemma read_frame_ok (p : Serial) (body tail : bytes) (rest : list rx_event) :
  ~ In "!"%byte body ->
  ~ In ETX tail ->
  rx p = map RxByte (body ++ "!"%byte :: tail ++ [ETX]) ++ rest ->
  read_frame p
  = (Ok (xor_bytes (body ++ "!"%byte :: tail ++ [ETX]), body), set_rx p rest).
Proof.
  intros Hbody Htail Hrx.
  assert (Hre : body ++ "!"%byte :: tail ++ [ETX]
                = (body ++ ["!"%byte]) ++ (tail ++ [ETX])).
  { now rewrite <- app_assoc. }
  rewrite Hre in Hrx.
  destruct (body ++ ["!"%byte]) as [|x xs] eqn:Hx.
  { now destruct body. }
  simpl in Hrx. rewrite map_app, <- app_assoc in Hrx.
  unfold read_frame, bind, read1, on_rx. rewrite Hrx. simpl.
  rewrite (@body_loop_frame body x xs 0%N [] _ Hbody (eq_sym Hx)).
  simpl.
  assert (Hpre : ~ In ETX ("!"%byte :: tail)).
  { intros [H|H]; [discriminate H | now apply Htail]. }
  rewrite (@tail_loop_frame ("!"%byte :: tail) "!"%byte (tail ++ [ETX])
             (xor_from 0 body) rest Hpre eq_refl).
  unfold ret. simpl. f_equal. f_equal. f_equal.
  rewrite Hre. unfold xor_bytes.
  rewrite <- Hx, <- !app_assoc. simpl.
  rewrite !xor_from_app. simpl. rewrite xor_from_app. reflexivity.
Qed.

(** [read] once the port is open: the body of the [try] and then the
    [finally] clause. *)
Lemma read_opened (p : Serial) :
  open_error p = None ->
  read p =
  let (r, q) := (handshake ;; read_datablock) (opened p) in
  (r, if is_open q then log_op OpClose (set_open false q) else q).
Proof.
  intros Hopen. unfold read, bind at 1, serial_Serial. rewrite Hopen.
  unfold try_finally.
  destruct ((handshake ;; read_datablock) _) as [r q].
  unfold bind, isOpen. destruct (is_open q); reflexivity.
Qed.

Lemma decode_7bit (b : bytes) :
  Forall (fun x => (ord x < 128)%N) b ->
  decode_us_ascii b = Ok (map ascii_of_byte b).
Proof.
  intros H. unfold decode_us_ascii.
  replace (forallb _ b) with true; [reflexivity|].
  symmetry. apply forallb_forall. intros x Hx.
  rewrite Forall_forall in H. apply N.ltb_lt. now apply H.
Qed.

Lemma frame_snoc (body tail : bytes) (c : byte) :
  body ++ "!"%byte :: tail ++ [ETX; c]
  = (body ++ "!"%byte :: tail ++ [ETX]) ++ [c].
Proof.
  rewrite <- app_assoc. simpl. rewrite <- app_assoc. reflexivity.
Qed.

(** Step 4 on a frame and its check character. *)
Lemma read_datablock_frame (p : Serial) (body tail : bytes) (c : byte)
      (rest : list rx_event) :
  ~ In "!"%byte body ->
  ~ In ETX tail ->
  rx p = map RxByte (STX :: body ++ "!"%byte :: tail ++ [ETX; c]) ++ rest ->
  read_datablock p
  = (if N.eqb (xor_bytes (body ++ "!"%byte :: tail ++ [ETX])) (ord c)
     then decode_us_ascii body
     else Raise (Exception "Result not OK, try again"),
     set_rx p rest).
Proof.
  intros Hbody Htail Hrx.
  unfold read_datablock, bind at 1, read1 at 1, on_rx at 1.
  rewrite Hrx. simpl.
  unfold bind at 1. unfold bind at 1.
  rewrite (@read_frame_ok _ body tail (RxByte c :: rest) Hbody Htail).
  2:{ simpl. rewrite frame_snoc, map_app, <- app_assoc. reflexivity. }
  unfold bind, read1, on_rx. simpl.
  destruct (N.eqb _ (ord c)); reflexivity.
Qed.

(** Conversely, a first loop that ends without an exception has read a
    run of bytes up to the first exclamation mark. *)
Lemma body_loop_inv (l : list rx_event) :
  forall curr bcc datablock c' bcc' datablock' l',
    body_loop l curr bcc datablock = (Ok (c', bcc', datablock'), l') ->
    c' = "!"%byte /\
    exists body xs,
      curr :: xs = body ++ ["!"%byte] /\ ~ In "!"%byte body /\
      l = map RxByte xs ++ l' /\
      bcc' = xor_from bcc body /\ datablock' = datablock ++ body.
Proof.
  assert (Hstop : forall l0 curr bcc datablock c' bcc' datablock' l',
             Byte.eqb curr "!"%byte = true ->
             (Ok (curr, bcc, datablock), l0)
             = (@Ok (byte * N * bytes) (c', bcc', datablock'), l') ->
             c' = "!"%byte /\
             exists body xs,
               curr :: xs = body ++ ["!"%byte] /\ ~ In "!"%byte body /\
               l0 = map RxByte xs ++ l' /\
               bcc' = xor_from bcc body /\ datablock' = datablock ++ body).
  { intros l0 curr bcc datablock c' bcc' datablock' l' Hc H.
    apply byte_eqb_eq in Hc. injection H as <- <- <- <-.
    split; [assumption|]. exists [], []. subst curr.
    repeat split; auto. now rewrite app_nil_r. }
  induction l as [|ev l IH]; intros curr bcc datablock c' bcc' datablock' l' H.
  - simpl in H. destruct (Byte.eqb curr "!"%byte) eqn:Hc.
    + eapply Hstop; eauto.
    + discriminate H.
  - simpl in H. destruct (Byte.eqb curr "!"%byte) eqn:Hc.
    + eapply Hstop; eauto.
    + destruct ev as [b| |e]; try discriminate H.
      apply IH in H. destruct H as [-> (body & xs & Hsplit & Hnot & -> & -> & ->)].
      split; [reflexivity|].
      exists (curr :: body), (b :: xs).
      refine (conj _ (conj _ (conj _ (conj _ _)))).
      * simpl. now rewrite <- Hsplit.
      * intros [Heq|Hin]; [|now apply Hnot].
        subst curr. discriminate Hc.
      * reflexivity.
      * reflexivity.
      * now rewrite <- app_assoc.
Qed.

Lemma tail_loop_inv (l : list rx_event) :
  forall curr bcc c' bcc' l',
    tail_loop l curr bcc = (Ok (c', bcc'), l') ->
    c' = ETX /\
    exists pre xs,
      curr :: xs = pre ++ [ETX] /\ ~ In ETX pre /\
      l = map RxByte xs ++ l' /\ bcc' = xor_from bcc pre.
Proof.
  assert (Hstop : forall l0 curr bcc c' bcc' l',
             Byte.eqb curr ETX = true ->
             (Ok (curr, bcc), l0) = (@Ok (byte * N) (c', bcc'), l') ->
             c' = ETX /\
             exists pre xs,
               curr :: xs = pre ++ [ETX] /\ ~ In ETX pre /\
               l0 = map RxByte xs ++ l' /\ bcc' = xor_from bcc pre).
  { intros l0 curr bcc c' bcc' l' Hc H.
    apply byte_eqb_eq in Hc. injection H as <- <- <-.
    split; [assumption|]. exists [], []. subst curr.
    repeat split; auto. }
  induction l as [|ev l IH]; intros curr bcc c' bcc' l' H.
  - simpl in H. destruct (Byte.eqb curr ETX) eqn:Hc.
    + eapply Hstop; eauto.
    + discriminate H.
  - simpl in H. destruct (Byte.eqb curr ETX) eqn:Hc.
    + eapply Hstop; eauto.
    + destruct ev as [b| |e]; try discriminate H.
      apply IH in H. destruct H as [-> (pre & xs & Hsplit & Hnot & -> & ->)].
      split; [reflexivity|].
      exists (curr :: pre), (b :: xs).
      refine (conj _ (conj _ (conj _ _))).
      * simpl. now rewrite <- Hsplit.
      * intros [Heq|Hin]; [|now apply Hnot].
        subst curr. discriminate Hc.
      * reflexivity.
      * reflexivity.
Qed.

Lemma read_frame_inv (p p' : Serial) (bcc : N) (datablock : bytes) :
  read_frame p = (Ok (bcc, datablock), p') ->
  exists body tail rest,
    rx p = map RxByte (body ++ "!"%byte :: tail ++ [ETX]) ++ rest /\
    ~ In "!"%byte body /\ ~ In ETX tail /\
    bcc = xor_bytes (body ++ "!"%byte :: tail ++ [ETX]) /\
    datablock = body /\ p' = set_rx p rest.
Proof.
  unfold read_frame, bind, read1, on_rx. intros H.
  destruct (rx p) as [|[b| |e] l] eqn:Hrx; simpl in H; try discriminate H.
  destruct (body_loop l b 0%N []) as [[[[c1 bcc1] db1]|e1] l1] eqn:H1;
    try discriminate H.
  apply body_loop_inv in H1.
  destruct H1 as [-> (body & xs & Hsplit & Hnot & -> & -> & ->)].
  simpl in H.
  destruct (tail_loop l1 "!"%byte (xor_from 0 body)) as [[[c2 bcc2]|e2] l2] eqn:H2;
    try discriminate H.
  apply tail_loop_inv in H2.
  destruct H2 as [-> (pre & xs2 & Hsplit2 & Hnot2 & -> & ->)].
  unfold ret in H. injection H as <- <- <-.
  destruct pre as [|x tail]; [discriminate Hsplit2|].
  simpl in Hsplit2. injection Hsplit2 as <- ->.
  exists body, tail, l2.
  assert (Hre : body ++ "!"%byte :: tail ++ [ETX]
                = (b :: xs) ++ tail ++ [ETX]).
  { rewrite Hsplit, <- app_assoc. reflexivity. }
  refine (conj _ (conj Hnot (conj _ (conj _ (conj eq_refl _))))).
  - rewrite Hre. simpl. now rewrite !map_app, <- !app_assoc.
  - intros Hin. apply Hnot2. now right.
  - unfold xor_bytes.
    replace (body ++ "!"%byte :: tail ++ [ETX])
      with (body ++ ("!"%byte :: tail) ++ [ETX]) by reflexivity.
    rewrite !xor_from_app. reflexivity.
  - reflexivity.
Qed.

(** A datablock that is returned and is not empty came from a whole
    frame whose check character agrees. *)
Lemma read_datablock_inv (p p' : Serial) (payload : str) :
  read_datablock p = (Ok payload, p') ->
  payload <> [] ->
  exists body tail c rest,
    rx p = map RxByte (STX :: body ++ "!"%byte :: tail ++ [ETX; c]) ++ rest /\
    ~ In "!"%byte body /\ ~ In ETX tail /\
    ord c = xor_bytes (body ++ "!"%byte :: tail ++ [ETX]) /\
    decode_us_ascii body = Ok payload.
Proof.
  unfold read_datablock, bind at 1, read1 at 1, on_rx at 1. intros H Hne.
  assert (Hempty : decode_us_ascii [] = Ok payload -> False).
  { intros Hd. apply Hne. now injection Hd. }
  assert (Hwarn : forall q,
             (datablock <- (warning "No STX found, not handled" ;; ret []) ;;
              (fun p0 : Serial => (decode_us_ascii datablock, p0))) q
             = (Ok payload, p') -> False).
  { intros q Hq. unfold bind, warning, ret in Hq. simpl in Hq.
    apply Hempty. congruence. }
  destruct (rx p) as [|[b| |e] l] eqn:Hrx; simpl in H;
    try (now apply Hwarn in H); try discriminate H.
  destruct (Byte.eqb b STX) eqn:Hb; [|now apply Hwarn in H].
  apply byte_eqb_eq in Hb. subst b.
  unfold bind at 1 in H. unfold bind at 1 in H.
  destruct (read_frame (set_rx p l)) as [[[bcc db]|e] q] eqn:Hf;
    try discriminate H.
  apply read_frame_inv in Hf.
  destruct Hf as (body & tail & rest & Hl & Hnot & Hnot2 & -> & -> & ->).
  simpl in Hl.
  unfold bind, read1, on_rx in H. simpl in H.
  destruct rest as [|[c| |e] rest]; simpl in H; try discriminate H.
  destruct (N.eqb (xor_bytes (body ++ "!"%byte :: tail ++ [ETX])) (ord c)) eqn:Hc;
    simpl in H; try discriminate H.
  apply N.eqb_eq in Hc. unfold ret in H.
  exists body, tail, c, rest.
  refine (conj _ (conj Hnot (conj Hnot2 (conj (eq_sym Hc) _)))).
  - rewrite Hl. simpl. f_equal.
    rewrite frame_snoc, (map_app RxByte _ [c]), <- app_assoc. reflexivity.
  - congruence.
Qed.

Lemma decode_ok_inv (b : bytes) (payload : str) :
  decode_us_ascii b = Ok payload -> payload = map ascii_of_byte b.
Proof.
  unfold decode_us_ascii. destruct (forallb _ b); congruence.
Qed.

(** What the handshake comes to, by the outcome of the identification
    read. *)
Lemma handshake_run (p : Serial) :
  handshake p =
  let p0 := log_op OpDelay (log_op (OpWrite [x2f; x3f; x21; x0d; x0a]) p) in
  match readline_from [] (rx p) with
  | (Raise e, l) => (Raise e, set_rx p0 l)
  | (Ok reply, l) =>
      if Nat.eqb (List.length reply) 0
      then (Raise (Exception "Empty string instead of identification"), set_rx p0 l)
      else if negb (starts_with "/"%byte (strip_garbage reply))
      then (Raise (Exception "No identification message"), set_rx p0 l)
      else if Nat.ltb (List.length (strip_garbage reply)) 7
      then (Raise (Exception "Identification message too short"), set_rx p0 l)
      else (Ok tt,
            log_op OpDelay
              (log_op (OpWrite (ACK :: [x30; x30; x30; x0d; x0a])) (set_rx p0 l)))
  end.
Proof.
  unfold handshake, bind, write, delay, readline, on_rx, raise. simpl.
  destruct (readline_from [] (rx p)) as [[reply|e] l]; [|reflexivity].
  destruct (Nat.eqb (List.length reply) 0); [reflexivity|].
  destruct (negb (starts_with "/"%byte (strip_garbage reply))); [reflexivity|].
  destruct (Nat.ltb (List.length (strip_garbage reply)) 7); reflexivity.
Qed.

(** An exception of the handshake is the exception of [read]. *)
Lemma read_handshake_raises (p : Serial) (e : exn) :
  open_error p = None ->
  fst (handshake (opened p)) = Raise e ->
  fst (read p) = Raise e.
Proof.
  intros Hopen H. rewrite (read_opened _ Hopen). unfold bind at 1.
  destruct (handshake _) as [[[]|e'] q]; simpl in H; [discriminate H|].
  simpl. congruence.
Qed.

Lemma index_skipn (noise rest : bytes) :
  ~ In "/"%byte noise ->
  skipn (index "/"%byte (noise ++ "/"%byte :: rest)) (noise ++ "/"%byte :: rest)
  = "/"%byte :: rest.
Proof.
  induction noise as [|x noise IH]; intros Hnot.
  - reflexivity.
  - simpl. destruct (Byte.eqb x "/"%byte) eqn:Hx.
    + apply byte_eqb_eq in Hx. exfalso. apply Hnot. now left.
    + simpl. apply IH. intros Hin. apply Hnot. now right.
Qed.

Lemma contains_In (b : byte) (message : bytes) :
  contains b message = true <-> In b message.
Proof.
  unfold contains. rewrite existsb_exists. split.
  - intros (x & Hin & Hx). apply byte_eqb_eq in Hx. now subst.
  - intros Hin. exists b. split; [assumption | apply byte_eqb_refl].
Qed.

(** The garbage in front of the first slash goes, the slash stays. *)
Lemma strip_garbage_noise (noise rest : bytes) :
  ~ In "/"%byte noise ->
  strip_garbage (noise ++ "/"%byte :: rest) = "/"%byte :: rest.
Proof.
  intros Hnot. unfold strip_garbage.
  destruct noise as [|x noise].
  - reflexivity.
  - assert (Hx : Byte.eqb x "/"%byte = false).
    { apply byte_eqb_neq. intros ->. apply Hnot. now left. }
    assert (Hc : contains "/"%byte ((x :: noise) ++ "/"%byte :: rest) = true).
    { apply contains_In. apply in_or_app. right. now left. }
    rewrite Hc. simpl starts_with. rewrite Hx. simpl negb. simpl andb.
    now apply index_skipn.
Qed.

Lemma strip_garbage_no_slash (message : bytes) :
  ~ In "/"%byte message -> strip_garbage message = message.
Proof.
  intros Hnot. unfold strip_garbage.
  destruct (contains "/"%byte message) eqn:Hc.
  - apply contains_In in Hc. contradiction.
  - now rewrite andb_false_r.
Qed.

(** *** The port between opening and closing *)

Lemma keeps_same {A} (m : M Serial A) :
  (forall p, is_open (snd (m p)) = is_open p /\ ops (snd (m p)) = ops p) ->
  keeps_port m.
Proof.
  intros H p. destruct (H p) as [Ho Hops]. split; [assumption|].
  exists []. rewrite app_nil_r. auto.
Qed.

Lemma keeps_ret {A} (a : A) : keeps_port (ret a).
Proof. apply keeps_same. now intros p. Qed.

Lemma keeps_raise {A} (e : exn) : keeps_port (@raise Serial A e).
Proof. apply keeps_same. now intros p. Qed.

Lemma keeps_on_rx {A} (f : list rx_event -> result A * list rx_event) :
  keeps_port (on_rx f).
Proof.
  apply keeps_same. intros p. unfold on_rx. now destruct (f (rx p)).
Qed.

Lemma keeps_log (o : port_op) :
  o <> OpOpen -> o <> OpClose ->
  keeps_port (fun p => (Ok tt, log_op o p)).
Proof.
  intros H1 H2 p. split; [reflexivity|]. exists [o]. simpl.
  split; [reflexivity|]. split; intros [H|[]]; congruence.
Qed.

Lemma keeps_bind {A B} (m : M Serial A) (k : A -> M Serial B) :
  keeps_port m -> (forall a, keeps_port (k a)) -> keeps_port (bind m k).
Proof.
  intros Hm Hk p. unfold bind.
  destruct (Hm p) as [Ho (mid & Hops & Hn1 & Hn2)].
  destruct (m p) as [[a|e] q]; simpl in *.
  - destruct (Hk a q) as [Ho' (mid' & Hops' & Hn1' & Hn2')].
    split; [congruence|]. exists (mid ++ mid').
    rewrite Hops', Hops, app_assoc. split; [reflexivity|].
    split; intros Hin; apply in_app_or in Hin; tauto.
  - split; [assumption|]. now exists mid.
Qed.

Create HintDb port.
#[local] Hint Resolve keeps_ret keeps_raise keeps_on_rx keeps_bind : port.

Lemma keeps_write (data : bytes) : keeps_port (write data).
Proof. apply keeps_log; discriminate. Qed.

Lemma keeps_delay : keeps_port delay.
Proof. apply keeps_log; discriminate. Qed.

Lemma keeps_warning (msg : string) : keeps_port (warning msg).
Proof. apply keeps_log; discriminate. Qed.

#[local] Hint Resolve keeps_write keeps_delay keeps_warning : port.

Lemma keeps_handshake : keeps_port handshake.
Proof.
  unfold handshake, readline.
  repeat (apply keeps_bind; [auto with port | intros ?]).
  repeat match goal with
         | |- keeps_port (if ?c then _ else _) => destruct c
         end; auto with port.
Qed.

Lemma keeps_read_frame : keeps_port read_frame.
Proof.
  unfold read_frame, read1.
  apply keeps_bind; [auto with port | intros [|b [|? ?]]]; auto with port.
  apply keeps_bind; [auto with port | intros [[c bcc] datablock]].
  apply keeps_bind; [auto with port | intros [c' bcc']]. auto with port.
Qed.

Lemma keeps_read_datablock : keeps_port read_datablock.
Proof.
  unfold read_datablock, read1.
  apply keeps_bind; [auto with port | intros first].
  apply keeps_bind.
  - destruct first as [|b [|? ?]]; auto with port.
    destruct (Byte.eqb b STX); auto with port.
    apply keeps_bind; [apply keeps_read_frame | intros [bcc datablock]].
    apply keeps_bind; [auto with port | intros [|c [|? ?]]]; auto with port.
    destruct (negb _); auto with port.
  - intros datablock. apply keeps_same. now intros q.
Qed.

(** *** What [read] raises *)

Lemma tame_ret {A} (a : A) : tame (ret a).
Proof. intros p Hp. split; [assumption | discriminate]. Qed.

Lemma tame_raise {A} (e : exn) :
  isinstance_Exception e = true -> tame (@raise Serial A e).
Proof.
  intros He p Hp. split; [assumption|]. simpl. intros e' H. now injection H as <-.
Qed.

Lemma tame_log (o : port_op) : tame (fun p => (Ok tt, log_op o p)).
Proof. intros p Hp. split; [assumption | discriminate]. Qed.

Lemma tame_bind {A B} (m : M Serial A) (k : A -> M Serial B) :
  tame m -> (forall a, tame (k a)) -> tame (bind m k).
Proof.
  intros Hm Hk p Hp. unfold bind. destruct (Hm p Hp) as [Hc He].
  destruct (m p) as [[a|e] q]; simpl in *.
  - exact (Hk a q Hc).
  - split; [assumption|]. intros e' H. apply He. congruence.
Qed.

Lemma tame_on_rx {A} (f : list rx_event -> result A * list rx_event) :
  (forall l, calm l ->
             calm (snd (f l)) /\
             forall e, fst (f l) = Raise e -> isinstance_Exception e = true) ->
  tame (on_rx f).
Proof.
  intros Hf p Hp. unfold on_rx. destruct (Hf _ Hp) as [Hc He].
  destruct (f (rx p)) as [r l]. simpl in *. auto.
Qed.

Lemma calm_inv (ev : rx_event) (l : list rx_event) :
  calm (ev :: l) ->
  calm l /\ forall e, ev = RxError e -> isinstance_Exception e = true.
Proof.
  intros H. inversion H as [|? ? Hev Hl]; subst. split; [assumption|].
  now intros e ->.
Qed.

Lemma tame_recv : tame read1.
Proof.
  apply tame_on_rx. intros [|[b| |e] l] Hl; simpl;
    try (split; [constructor | discriminate]);
    destruct (calm_inv Hl) as [Hc He];
    try (split; [assumption | discriminate]).
  split; [assumption|]. intros e' H. injection H as <-. now apply He.
Qed.

Lemma tame_readline : tame readline.
Proof.
  apply tame_on_rx. intros l. generalize (@nil byte).
  induction l as [|[b| |e] l IH]; intros acc Hl; simpl;
    try (split; [constructor | discriminate]);
    destruct (calm_inv Hl) as [Hc He].
  - destruct (Byte.eqb b x0a); [split; [assumption | discriminate] | now apply IH].
  - split; [assumption | discriminate].
  - split; [assumption|]. intros e' H. injection H as <-. now apply He.
Qed.

Lemma tame_body_loop (b : byte) (bcc : N) (datablock : bytes) :
  tame (on_rx (fun l => body_loop l b bcc datablock)).
Proof.
  apply tame_on_rx. intros l. revert b bcc datablock.
  induction l as [|ev l IH]; intros b bcc datablock Hl; simpl;
    destruct (Byte.eqb b "!"%byte);
    try (split; [assumption | discriminate]).
  - split; [constructor|]. intros e H. now injection H as <-.
  - destruct (calm_inv Hl) as [Hc He]. destruct ev as [b'| |e]; simpl.
    + now apply IH.
    + split; [assumption|]. intros e H. now injection H as <-.
    + split; [assumption|]. intros e' H. injection H as <-. now apply He.
Qed.

Lemma tame_tail_loop (b : byte) (bcc : N) :
  tame (on_rx (fun l => tail_loop l b bcc)).
Proof.
  apply tame_on_rx. intros l. revert b bcc.
  induction l as [|ev l IH]; intros b bcc Hl; simpl;
    destruct (Byte.eqb b ETX);
    try (split; [assumption | discriminate]).
  - split; [constructor|]. intros e H. now injection H as <-.
  - destruct (calm_inv Hl) as [Hc He]. destruct ev as [b'| |e]; simpl.
    + now apply IH.
    + split; [assumption|]. intros e H. now injection H as <-.
    + split; [assumption|]. intros e' H. injection H as <-. now apply He.
Qed.

Create HintDb tame.
#[local] Hint Resolve tame_ret tame_raise tame_log tame_bind tame_recv
  tame_readline tame_body_loop tame_tail_loop : tame.

Lemma tame_handshake : tame handshake.
Proof.
  unfold handshake, write, delay.
  repeat (apply tame_bind; [auto with tame | intros ?]).
  repeat match goal with
         | |- tame (if ?c then _ else _) => destruct c
         end; auto with tame.
Qed.

Lemma tame_read_frame : tame read_frame.
Proof.
  unfold read_frame.
  apply tame_bind; [auto with tame | intros [|b [|? ?]]]; auto with tame.
  apply tame_bind; [auto with tame | intros [[c bcc] datablock]].
  apply tame_bind; [auto with tame | intros [c' bcc']]. auto with tame.
Qed.

Lemma tame_read_datablock : tame read_datablock.
Proof.
  unfold read_datablock, warning.
  apply tame_bind; [auto with tame | intros first].
  apply tame_bind.
  - destruct first as [|b [|? ?]]; auto with tame.
    destruct (Byte.eqb b STX); auto with tame.
    apply tame_bind; [apply tame_read_frame | intros [bcc datablock]].
    apply tame_bind; [auto with tame | intros [|c [|? ?]]]; auto with tame.
    destruct (negb _); auto with tame.
  - intros datablock q Hq. split; [assumption|]. simpl.
    unfold decode_us_ascii. destruct (forallb _ datablock); [discriminate|].
    intros e H. now injection H as <-.
Qed.

(** On a line without signals, whatever [read] raises is an
    [Exception]. *)
Lemma read_raises_only_exceptions (p : Serial) (e : exn) :
  calm (rx p) ->
  (forall e0, open_error p = Some e0 -> isinstance_Exception e0 = true) ->
  fst (read p) = Raise e ->
  isinstance_Exception e = true.
Proof.
  intros Hcalm Hopen. destruct (open_error p) as [e0|] eqn:Ho.
  - unfold read, bind, serial_Serial. rewrite Ho. simpl.
    intros H. injection H as <-. now apply Hopen.
  - rewrite (read_opened _ Ho).
    assert (Ht : tame (handshake ;; read_datablock)).
    { apply tame_bind; [apply tame_handshake | intros _; apply tame_read_datablock]. }
    destruct (Ht (opened p) Hcalm) as [_ He].
    destruct ((handshake ;; read_datablock) (opened p)) as [r q].
    simpl in *. exact (He e).
Qed.

(** C1: after the start marker the checksum [read] accumulates is the
    exclusive-or of every byte up to and including the end marker, and
    the datablock is returned exactly when the check character that
    follows the end marker equals it; otherwise the call raises and
    returns nothing.  The port is opened with [bytesize=7], so the bytes
    of the datablock are below 128.  The second part is the converse for
    an arbitrary line: a payload that is returned and is not empty is
    the whole datablock of a frame whose check character agrees. *)
Theorem read_block_iff_bcc (p p1 : Serial) :
  open_error p = None ->
  handshake (opened p) = (Ok tt, p1) ->
  (forall body tail c rest,
      rx p1 = map RxByte (STX :: body ++ "!"%byte :: tail ++ [ETX; c]) ++ rest ->
      ~ In "!"%byte body ->
      ~ In ETX tail ->
      Forall (fun x => (ord x < 128)%N) body ->
      let frame := body ++ "!"%byte :: tail ++ [ETX] in
      fst (read_frame (set_rx p1 (map RxByte (frame ++ [c]) ++ rest)))
      = Ok (xor_bytes frame, body) /\
      (fst (read p) = Ok (map ascii_of_byte body) <-> ord c = xor_bytes frame) /\
      (ord c <> xor_bytes frame ->
       fst (read p) = Raise (Exception "Result not OK, try again")))
  /\
  (forall payload p',
      read p = (Ok payload, p') ->
      payload <> [] ->
      exists body tail c rest,
        rx p1 = map RxByte (STX :: body ++ "!"%byte :: tail ++ [ETX; c]) ++ rest /\
        ~ In "!"%byte body /\ ~ In ETX tail /\
        ord c = xor_bytes (body ++ "!"%byte :: tail ++ [ETX]) /\
        payload = map ascii_of_byte body).
Proof.
  intros Hopen Hhs.
  assert (Hread : read p =
                  let (r, q) := read_datablock p1 in
                  (r, if is_open q then log_op OpClose (set_open false q) else q)).
  { rewrite (read_opened _ Hopen). unfold bind at 1. now rewrite Hhs. }
  split.
  - intros body tail c rest Hrx Hbody Htail H7 frame.
    split.
    { rewrite (@read_frame_ok _ body tail (RxByte c :: rest) Hbody Htail).
      - reflexivity.
      - simpl. unfold frame. rewrite map_app, <- app_assoc. reflexivity. }
    rewrite Hread, (read_datablock_frame _ _ _ _ Hbody Htail Hrx).
    fold frame. simpl. rewrite (decode_7bit H7).
    destruct (N.eqb (xor_bytes frame) (ord c)) eqn:Hc.
    + apply N.eqb_eq in Hc. split; [now split|]. congruence.
    + apply N.eqb_neq in Hc. split; [|reflexivity].
      split; [discriminate | congruence].
  - intros payload p' Hret Hne. rewrite Hread in Hret.
    destruct (read_datablock p1) as [r q] eqn:Hd.
    injection Hret as -> _.
    destruct (read_datablock_inv _ Hd Hne)
      as (body & tail & c & rest & Hrx & Hb & Ht & Hc & Hdec).
    exists body, tail, c, rest.
    refine (conj Hrx (conj Hb (conj Ht (conj Hc _)))).
    now apply decode_ok_inv.
Qed.

Lemma read_block_iff_bcc_witness :
  fst (read (sample_port "C"%byte)) = Ok (map ascii_of_byte sample_body)
  /\ fst (read (sample_port "D"%byte)) = Raise (Exception "Result not OK, try again").
Proof.
  split.
  - destruct (@read_block_iff_bcc (sample_port "C"%byte)
                (snd (handshake (opened (sample_port "C"%byte))))
                eq_refl eq_refl) as [Hframe _].
    destruct (Hframe sample_body crlf "C"%byte [] eq_refl) as (_ & Hiff & _).
    + vm_compute. intuition discriminate.
    + vm_compute. intuition discriminate.
    + unfold sample_body, ord. repeat constructor.
    + apply Hiff. reflexivity.
  - destruct (@read_block_iff_bcc (sample_port "D"%byte)
                (snd (handshake (opened (sample_port "D"%byte))))
                eq_refl eq_refl) as [Hframe _].
    destruct (Hframe sample_body crlf "D"%byte [] eq_refl) as (_ & _ & Hneq).
    + vm_compute. intuition discriminate.
    + vm_compute. intuition discriminate.
    + unfold sample_body, ord. repeat constructor.
    + apply Hneq. discriminate.
Defined.

(** C3: of an identification reply that is not empty, [read] drops
    exactly the bytes in front of the first slash and keeps the slash;
    the reply passes, and the acknowledgement is written, exactly when
    what remains begins with a slash and has at least seven bytes, and
    otherwise [read] raises one of the two exceptions for a malformed
    identification.  An empty reply raises a third exception. *)
Theorem identification_checked (p : Serial) (reply : bytes) (l : list rx_event) :
  open_error p = None ->
  readline_from [] (rx p) = (Ok reply, l) ->
  let message := strip_garbage reply in
  let valid := starts_with "/"%byte message = true /\ 7 <= List.length message in
  let no_response := Exception "Empty string instead of identification" in
  let no_ident := Exception "No identification message" in
  let too_short := Exception "Identification message too short" in
  (reply = [] -> fst (read p) = Raise no_response) /\
  (reply <> [] ->
   (forall noise rest,
       reply = noise ++ "/"%byte :: rest -> ~ In "/"%byte noise ->
       message = "/"%byte :: rest) /\
   (~ In "/"%byte reply -> message = reply) /\
   (fst (handshake (opened p)) = Ok tt <-> valid) /\
   (~ valid ->
    (fst (read p) = Raise no_ident \/ fst (read p) = Raise too_short) /\
    fst (read p) <> Raise no_response)).
Proof.
  intros Hopen Hline message valid no_response no_ident too_short.
  assert (Hhs := handshake_run (opened p)).
  change (rx (opened p)) with (rx p) in Hhs. rewrite Hline in Hhs.
  cbv zeta in Hhs. fold message in Hhs.
  split.
  - intros ->. apply (read_handshake_raises _ Hopen). now rewrite Hhs.
  - intros Hne.
    assert (Hlen : Nat.eqb (List.length reply) 0 = false).
    { destruct reply; [congruence | reflexivity]. }
    rewrite Hlen in Hhs.
    split; [|split].
    { intros noise rest -> Hnot. now apply strip_garbage_noise. }
    { apply strip_garbage_no_slash. }
    destruct (starts_with "/"%byte message) eqn:Hs; simpl in Hhs.
    + destruct (Nat.ltb (List.length message) 7) eqn:H7.
      * apply Nat.ltb_lt in H7.
        assert (Hnv : ~ valid) by (unfold valid; lia).
        assert (Hr : fst (read p) = Raise too_short).
        { apply (read_handshake_raises _ Hopen). now rewrite Hhs. }
        split.
        -- rewrite Hhs. simpl. split; [discriminate | tauto].
        -- intros _. rewrite Hr. split; [now right | discriminate].
      * apply Nat.ltb_ge in H7.
        assert (Hv : valid) by (unfold valid; auto).
        split; [|tauto]. rewrite Hhs. simpl. tauto.
    + assert (Hnv : ~ valid) by (unfold valid; intros [H _]; discriminate H).
      assert (Hr : fst (read p) = Raise no_ident).
      { apply (read_handshake_raises _ Hopen). now rewrite Hhs. }
      split.
      * rewrite Hhs. simpl. split; [discriminate | tauto].
      * intros _. rewrite Hr. split; [now left | discriminate].
Qed.

Lemma identification_checked_witness :
  strip_garbage ([x00; x7f] ++ sample_ident) = sample_ident
  /\ fst (handshake (opened noisy_port)) = Ok tt.
Proof.
  destruct (@identification_checked noisy_port ([x00; x7f] ++ sample_ident) []
              eq_refl eq_refl) as [_ H].
  destruct H as (Hstrip & _ & Hiff & _).
  - discriminate.
  - split.
    + apply (Hstrip [x00; x7f] (tl sample_ident) eq_refl).
      vm_compute. intuition discriminate.
    + apply Hiff. vm_compute. split; [reflexivity|]. repeat constructor.
Defined.

(** C5: a call of [read] that gets the port open leaves it closed on
    every way out, with a value or with an exception: what it does to
    the port starts with the opening, ends with the closing, and neither
    opens nor closes in between. *)
Theorem read_opens_and_closes (p q : Serial) (r : result str) :
  open_error p = None ->
  read p = (r, q) ->
  is_open q = false /\
  exists mid,
    ops q = ops p ++ OpOpen :: mid ++ [OpClose] /\
    ~ In OpOpen mid /\ ~ In OpClose mid.
Proof.
  intros Hopen. rewrite (read_opened _ Hopen).
  assert (Hk : keeps_port (handshake ;; read_datablock)).
  { apply keeps_bind; [apply keeps_handshake | intros _; apply keeps_read_datablock]. }
  destruct (Hk (opened p)) as [Ho (mid & Hops & Hn1 & Hn2)].
  destruct ((handshake ;; read_datablock) (opened p)) as [r' q'].
  simpl in Ho, Hops. rewrite Ho. intros H. injection H as _ <-.
  split; [reflexivity|]. exists mid. simpl. rewrite Hops.
  rewrite <- !app_assoc. simpl. auto.
Qed.

Lemma read_opens_and_closes_witness :
  is_open (snd (read noisy_port)) = false
  /\ is_open (snd (read (port_with []))) = false
  /\ is_open (snd (read (sample_port "D"%byte))) = false.
Proof.
  split; [|split].
  - exact (proj1 (@read_opens_and_closes noisy_port _ _ eq_refl
                    (surjective_pairing (read noisy_port)))).
  - exact (proj1 (@read_opens_and_closes (port_with []) _ _ eq_refl
                    (surjective_pairing (read (port_with []))))).
  - exact (proj1 (@read_opens_and_closes (sample_port "D"%byte) _ _ eq_refl
                    (surjective_pairing (read (sample_port "D"%byte))))).
Defined.

(** The first half of C4: a reply to the acknowledgement that is not
    the start marker, or none within the timeout, makes [read] return
    the empty string. *)
Lemma read_without_stx (p p1 : Serial) :
  open_error p = None ->
  handshake (opened p) = (Ok tt, p1) ->
  (forall l, rx p1 <> RxByte STX :: l) ->
  (forall e l, rx p1 <> RxError e :: l) ->
  fst (read p) = Ok [].
Proof.
  intros Hopen Hhs Hstx Herr.
  rewrite (read_opened _ Hopen). unfold bind at 1. rewrite Hhs.
  unfold read_datablock, bind, read1, on_rx.
  destruct (rx p1) as [|[b| |e] l] eqn:Hrx; simpl; try reflexivity.
  - destruct (Byte.eqb b STX) eqn:Hb; [|reflexivity].
    apply byte_eqb_eq in Hb. subst b. now destruct (Hstx l).
  - now destruct (Herr e l).
Qed.

End MT174Facts.

(** ** The datablock parser *)

Module ParserFacts.
Import Re Parser ParserSpec Samples.

Lemma str_eqb_eq (a b : str) : str_eqb a b = true <-> a = b.
Proof.
  revert b. induction a as [|x a IH]; intros [|y b]; simpl;
    try (split; [discriminate | discriminate]); try tauto.
  rewrite andb_true_iff, Ascii.eqb_eq, IH. split.
  - intros [-> ->]. reflexivity.
  - intros H. injection H as -> ->. auto.
Qed.

Lemma str_eqb_refl (a : str) : str_eqb a a = true.
Proof. now apply str_eqb_eq. Qed.

Lemma str_eqb_neq (a b : str) : str_eqb a b = false <-> a <> b.
Proof.
  rewrite <- str_eqb_eq. destruct (str_eqb a b); split; congruence.
Qed.

(** *** Splitting *)

Lemma split_from_words (P : ascii -> Prop) (data : str) :
  (forall c, isspace c = false -> P c) ->
  forall word,
    Forall P word ->
    Forall (fun w => w <> [] /\ Forall P w) (split_from word data).
Proof.
  intros HP. induction data as [|c data IH]; intros word Hword; simpl.
  - destruct word; constructor; [|constructor]. split; [discriminate | assumption].
  - destruct (isspace c) eqn:Hc.
    + destruct word.
      * apply IH. constructor.
      * constructor; [split; [discriminate | assumption]|].
        apply IH. constructor.
    + apply IH. apply Forall_app. split; [assumption|].
      constructor; [now apply HP | constructor].
Qed.

(** No line of [data.split()] is empty or holds whitespace. *)
Lemma split_words (data : str) :
  Forall (fun w => w <> [] /\ Forall (fun c => isspace c = false) w) (split data).
Proof.
  apply split_from_words; [auto | constructor].
Qed.

(** *** Matching *)

Lemma plus_rests_shorter (p : ascii -> bool) (t t' : str) :
  In t' (plus_rests p t) -> List.length t' < List.length t.
Proof.
  revert t'. induction t as [|c t IH]; intros t' Hin; simpl in Hin.
  - destruct Hin.
  - destruct (p c); [|destruct Hin].
    apply in_app_or in Hin. destruct Hin as [Hin|[<-|[]]].
    + apply IH in Hin. simpl. lia.
    + simpl. lia.
Qed.

Lemma plus_rests_tail (P : ascii -> Prop) (p : ascii -> bool) (t t' : str) :
  Forall P t -> In t' (plus_rests p t) -> Forall P t'.
Proof.
  revert t'. induction t as [|c t IH]; intros t' Ht Hin; simpl in Hin.
  - destruct Hin.
  - inversion Ht; subst. destruct (p c); [|destruct Hin].
    apply in_app_or in Hin. destruct Hin as [Hin|[<-|[]]]; auto.
Qed.

Lemma Forall_firstn (P : ascii -> Prop) (n : nat) (t : str) :
  Forall P t -> Forall P (firstn n t).
Proof.
  revert n. induction t as [|c t IH]; intros [|n] Ht; simpl; try constructor.
  - now inversion Ht.
  - apply IH. now inversion Ht.
Qed.

(** A property of the characters of the line holds of the rest and of
    every group of every match. *)
Lemma matches_chars (P : ascii -> Prop) (r : regex) :
  forall t g t' g',
    Forall P t ->
    (forall n v, g n = Some v -> Forall P v) ->
    In (t', g') (matches r t g) ->
    Forall P t' /\ (forall n v, g' n = Some v -> Forall P v).
Proof.
  induction r as [c|p|r1 IH1 r2 IH2|r IH|p|k r IH];
    intros t g t' g' Ht Hg Hin; simpl in Hin.
  - destruct t as [|x t]; [destruct Hin|].
    destruct (Ascii.eqb x c); [|destruct Hin].
    destruct Hin as [H|[]]. injection H as <- <-.
    split; [now inversion Ht | assumption].
  - destruct t as [|x t]; [destruct Hin|].
    destruct (p x); [|destruct Hin].
    destruct Hin as [H|[]]. injection H as <- <-.
    split; [now inversion Ht | assumption].
  - apply in_flat_map in Hin. destruct Hin as ([t1 g1] & H1 & H2).
    destruct (IH1 _ _ _ _ Ht Hg H1) as [Ht1 Hg1].
    exact (IH2 _ _ _ _ Ht1 Hg1 H2).
  - apply in_app_or in Hin. destruct Hin as [Hin|[H|[]]].
    + exact (IH _ _ _ _ Ht Hg Hin).
    + injection H as <- <-. auto.
  - apply in_map_iff in Hin. destruct Hin as (t1 & H & Hin).
    injection H as <- <-. split; [|assumption].
    exact (@plus_rests_tail P p t t1 Ht Hin).
  - apply in_map_iff in Hin. destruct Hin as ([t1 g1] & H & Hin).
    simpl in H. injection H as <- <-.
    destruct (IH _ _ _ _ Ht Hg Hin) as [Ht1 Hg1].
    split; [assumption|]. intros n v. unfold set_group.
    destruct (Nat.eqb n k).
    + intros H. injection H as <-. now apply Forall_firstn.
    + apply Hg1.
Qed.

Lemma re_match_In (r : regex) (line : str) (m : groups) :
  re_match r line = Some m ->
  exists t', In (t', m) (matches r line no_groups).
Proof.
  unfold re_match. destruct (matches r line no_groups) as [|[t' g'] rest];
    [discriminate|].
  intros H. injection H as <-. exists t'. now left.
Qed.

(** The groups of a match are made of characters of the line. *)
Lemma re_match_chars (P : ascii -> Prop) (r : regex) (line : str) (m : groups) :
  Forall P line -> re_match r line = Some m -> forall n, Forall P (group m n).
Proof.
  intros Hline Hm n. apply re_match_In in Hm. destruct Hm as [t' Hin].
  destruct (@matches_chars P r line no_groups t' m Hline) as [_ Hg]; auto.
  { discriminate. }
  unfold group. destruct (m n) as [v|] eqn:Hv; [eauto | constructor].
Qed.

(** The second group of [DATABLOCK_REGEX] is never empty. *)
Lemma datablock_value_not_empty (line : str) (m : groups) :
  re_match DATABLOCK_REGEX line = Some m -> group m 2 <> [].
Proof.
  intros Hm. apply re_match_In in Hm. destruct Hm as [t' Hin].
  unfold DATABLOCK_REGEX in Hin.
  cbn [matches] in Hin.
  apply in_flat_map in Hin. destruct Hin as ([t1 g1] & _ & Hin).
  apply in_flat_map in Hin. destruct Hin as ([t2 g2] & _ & Hin).
  apply in_flat_map in Hin. destruct Hin as ([t3 g3] & _ & Hin).
  apply in_flat_map in Hin. destruct Hin as ([t4 g4] & _ & Hin).
  apply in_flat_map in Hin. destruct Hin as ([t5 g5] & H5 & Hin).
  cbn [fst snd] in *.
  apply in_map_iff in H5. destruct H5 as ([t6 g6] & H & H6).
  cbn [fst snd] in H. injection H as <- <-.
  apply in_map_iff in H6. destruct H6 as (t7 & H & H7).
  injection H as <- <-.
  apply plus_rests_shorter in H7.
  destruct t7 as [|x t7]; [destruct Hin|].
  destruct (Ascii.eqb x ")"); [|destruct Hin].
  destruct Hin as [H|[]]. injection H as <- <-.
  unfold group, set_group. simpl Nat.eqb. cbv iota.
  unfold consumed.
  destruct t4 as [|y t4]; [simpl in H7; lia|].
  replace (List.length (y :: t4) - List.length (x :: t7))
    with (S (List.length t4 - List.length (x :: t7))) by (simpl in *; lia).
  discriminate.
Qed.

(** *** Dictionaries *)

Lemma dict_get_set (c k v : str) (d : dict) :
  dict_get c (dict_set k v d) = if str_eqb k c then Some v else dict_get c d.
Proof.
  induction d as [|[k' v'] d IH]; simpl.
  - reflexivity.
  - destruct (str_eqb k' k) eqn:Hk; simpl.
    + apply str_eqb_eq in Hk. subst k'. now destruct (str_eqb k c).
    + rewrite IH. destruct (str_eqb k' c) eqn:Hc; [|reflexivity].
      apply str_eqb_eq in Hc. subst k'. now rewrite (proj2 (str_eqb_neq k c)) by
        (apply str_eqb_neq in Hk; congruence).
Qed.

Lemma dict_set_In (k v : str) (d : dict) (kv : str * str) :
  In kv (dict_set k v d) -> kv = (k, v) \/ In kv d.
Proof.
  induction d as [|[k' v'] d IH]; simpl.
  - intros [<-|[]]. now left.
  - destruct (str_eqb k' k) eqn:Hk.
    + apply str_eqb_eq in Hk. subst k'. intros [<-|H]; auto.
    + intros [<-|H]; auto. destruct (IH H); auto.
Qed.

(** The loop of [datablock_to_dict] is the assignments of the matching
    lines: a line that does not match changes nothing. *)
Lemma fold_parse_line (lines : list str) :
  forall d, fold_left parse_line lines d = assign_all d (parsed_pairs lines).
Proof.
  unfold assign_all.
  induction lines as [|line lines IH]; intros d; simpl; [reflexivity|].
  rewrite fold_left_app, IH. unfold parse_line.
  now destruct (re_match DATABLOCK_REGEX line).
Qed.

Lemma assign_all_In (pairs : list (str * str)) :
  forall d kv, In kv (assign_all d pairs) -> In kv d \/ In kv pairs.
Proof.
  unfold assign_all.
  induction pairs as [|[k v] pairs IH]; intros d kv; simpl; [auto|].
  intros H. apply IH in H. destruct H as [H|H]; [|auto].
  apply dict_set_In in H. destruct H as [->|H]; auto.
Qed.

Lemma parsed_pairs_In (lines : list str) (kv : str * str) :
  In kv (parsed_pairs lines) ->
  exists line m,
    In line lines /\ re_match DATABLOCK_REGEX line = Some m /\
    kv = (group m 1, group m 2).
Proof.
  unfold parsed_pairs. rewrite in_flat_map. intros (line & Hline & H).
  destruct (re_match DATABLOCK_REGEX line) as [m|] eqn:Hm; [|destruct H].
  destruct H as [<-|[]]. now exists line, m.
Qed.

(** C10: every entry of the mapping [datablock_to_dict] returns has a
    value that is not empty, and neither its code nor its value holds a
    whitespace character, whatever the input; the empty string gives the
    empty mapping. *)
Theorem datablock_entries_clean :
  (forall (data code value : str),
      In (code, value) (datablock_to_dict data) ->
      value <> [] /\
      Forall (fun c => isspace c = false) code /\
      Forall (fun c => isspace c = false) value)
  /\ datablock_to_dict (s "") = [].
Proof.
  split; [|reflexivity].
  intros data code value Hin. unfold datablock_to_dict in Hin.
  rewrite fold_parse_line in Hin. apply assign_all_In in Hin.
  destruct Hin as [[]|Hin].
  apply parsed_pairs_In in Hin. destruct Hin as (line & m & Hline & Hm & Hkv).
  injection Hkv as -> ->.
  assert (Hw := split_words data). rewrite Forall_forall in Hw.
  destruct (Hw _ Hline) as [_ Hchars].
  split; [exact (datablock_value_not_empty _ Hm)|].
  split; exact (re_match_chars _ Hchars Hm _).
Qed.

Lemma datablock_entries_clean_witness :
  s "0692930.505*kWh" <> [] /\
  Forall (fun c => isspace c = false) (s "1.8.0") /\
  Forall (fun c => isspace c = false) (s "0692930.505*kWh").
Proof.
  apply (proj1 datablock_entries_clean
           (s "  1-0:1.8.0*255(0692930.505*kWh)  ()") (s "1.8.0") (s "0692930.505*kWh")).
  vm_compute. now left.
Defined.

(** *** The order of the keys *)

Lemma filter_idem {A} (f : A -> bool) (l : list A) :
  filter f (filter f l) = filter f l.
Proof.
  induction l as [|x l IH]; simpl; [reflexivity|].
  destruct (f x) eqn:Hx; simpl; [rewrite Hx|]; now rewrite IH.
Qed.

Lemma filter_comm {A} (f g : A -> bool) (l : list A) :
  filter f (filter g l) = filter g (filter f l).
Proof.
  induction l as [|x l IH]; simpl; [reflexivity|].
  destruct (f x) eqn:Hf, (g x) eqn:Hg; simpl;
    rewrite ?Hf, ?Hg, IH; reflexivity.
Qed.

Lemma filter_all {A} (f : A -> bool) (l : list A) :
  (forall x, In x l -> f x = true) -> filter f l = l.
Proof.
  induction l as [|x l IH]; intros H; simpl; [reflexivity|].
  rewrite (H x (or_introl eq_refl)), IH; [reflexivity|].
  intros y Hy. apply H. now right.
Qed.

Lemma uniq_NoDup (l : list str) : NoDup l -> uniq l = l.
Proof.
  induction 1 as [|x l Hx Hl IH]; simpl; [reflexivity|].
  rewrite IH, filter_all; [reflexivity|].
  intros y Hy. apply negb_true_iff, str_eqb_neq. congruence.
Qed.

Lemma filter_uniq_drop (k : str) (a b : list str) :
  filter (fun y => negb (str_eqb k y)) (uniq (a ++ k :: b))
  = filter (fun y => negb (str_eqb k y)) (uniq (a ++ b)).
Proof.
  induction a as [|x a IH]; simpl.
  - rewrite str_eqb_refl. simpl. apply filter_idem.
  - rewrite (filter_comm _ (fun y => negb (str_eqb x y))), IH.
    rewrite (filter_comm (fun y => negb (str_eqb x y))).
    reflexivity.
Qed.

Lemma uniq_absorb (k : str) (ks rest : list str) :
  In k ks -> uniq (ks ++ k :: rest) = uniq (ks ++ rest).
Proof.
  induction ks as [|x ks IH]; intros Hin; [destruct Hin|]. simpl.
  destruct (str_eqb x k) eqn:Hx.
  - apply str_eqb_eq in Hx. subst x. now rewrite filter_uniq_drop.
  - destruct Hin as [->|Hin]; [now rewrite str_eqb_refl in Hx|].
    now rewrite IH.
Qed.

Lemma keys_set (k v : str) (d : dict) :
  (In k (keys d) /\ keys (dict_set k v d) = keys d)
  \/ (~ In k (keys d) /\ keys (dict_set k v d) = keys d ++ [k]).
Proof.
  induction d as [|[k' v'] d IH]; simpl.
  - right. auto.
  - destruct (str_eqb k' k) eqn:Hk.
    + apply str_eqb_eq in Hk. subst k'. left. auto.
    + apply str_eqb_neq in Hk. simpl.
      destruct IH as [[Hin ->]|[Hnot ->]]; [left | right]; split; auto.
      intros [H|H]; contradiction.
Qed.

Lemma NoDup_snoc {A} (l : list A) (x : A) :
  NoDup l -> ~ In x l -> NoDup (l ++ [x]).
Proof.
  induction 1 as [|y l Hy Hl IH]; intros Hx; simpl.
  - constructor; [intros [] | constructor].
  - constructor.
    + intros Hin. apply in_app_or in Hin. destruct Hin as [Hin|[->|[]]].
      * contradiction.
      * apply Hx. now left.
    + apply IH. intros Hin. apply Hx. now right.
Qed.

Lemma keys_assign_all (pairs : list (str * str)) :
  forall d,
    NoDup (keys d) ->
    NoDup (keys (assign_all d pairs)) /\
    keys (assign_all d pairs) = uniq (keys d ++ map fst pairs).
Proof.
  unfold assign_all.
  induction pairs as [|[k v] pairs IH]; intros d Hd; simpl.
  - rewrite app_nil_r, uniq_NoDup by assumption. auto.
  - destruct (keys_set k v d) as [[Hin Hk]|[Hnot Hk]].
    + destruct (IH (dict_set k v d)) as [Hn He]; [now rewrite Hk|].
      split; [assumption|]. rewrite He, Hk. symmetry. now apply uniq_absorb.
    + destruct (IH (dict_set k v d)) as [Hn He].
      { rewrite Hk. now apply NoDup_snoc. }
      split; [assumption|]. rewrite He, Hk, <- app_assoc. reflexivity.
Qed.

Lemma assign_all_get_other (c : str) (pairs : list (str * str)) :
  forall d,
    ~ In c (map fst pairs) ->
    dict_get c (assign_all d pairs) = dict_get c d.
Proof.
  unfold assign_all.
  induction pairs as [|[k v] pairs IH]; intros d Hnot; simpl; [reflexivity|].
  rewrite IH by (intros H; apply Hnot; now right).
  rewrite dict_get_set. simpl in Hnot.
  rewrite (proj2 (str_eqb_neq k c)); [reflexivity|]. intros ->. apply Hnot. now left.
Qed.

Lemma line_break_isspace (c : ascii) : is_line_break c = true -> isspace c = true.
Proof.
  unfold is_line_break, isspace.
  rewrite orb_true_iff, !N.eqb_eq. intros [->| ->]; reflexivity.
Qed.

(** On a payload whose only whitespace is its line breaks, the pieces
    of [data.split()] are its lines. *)
Lemma split_from_lines (data : str) :
  (forall c, In c data -> isspace c = true -> is_line_break c = true) ->
  forall word, split_from word data = lines_from word data.
Proof.
  induction data as [|c data IH]; intros Hdata word; simpl; [reflexivity|].
  assert (Hc : isspace c = is_line_break c).
  { destruct (isspace c) eqn:Hs.
    - symmetry. apply Hdata; [now left | assumption].
    - destruct (is_line_break c) eqn:Hl; [|reflexivity].
      apply line_break_isspace in Hl. congruence. }
  rewrite Hc.
  assert (IH' := IH (fun c' Hin => Hdata c' (or_intror Hin))).
  destruct (is_line_break c); [destruct word|]; now rewrite IH'.
Qed.

(** C9 as stated fails: the second line of [spaced_value] matches the
    pattern with the code of the first and the value [2 3], yet the
    mapping keeps the value of the first line, because [data.split()]
    cuts the second line at its space. *)
Lemma line_with_space_not_last :
  spec_lines spaced_value = [s "1.8.0(1)"; s "1.8.0(2 3)"]
  /\ (exists m,
         re_match DATABLOCK_REGEX (s "1.8.0(2 3)") = Some m
         /\ group m 1 = s "1.8.0" /\ group m 2 = s "2 3")
  /\ split spaced_value = [s "1.8.0(1)"; s "1.8.0(2"; s "3)"]
  /\ dict_get (s "1.8.0") (datablock_to_dict spaced_value) = Some (s "1")
  /\ dict_get (s "1.8.0") (datablock_to_dict spaced_value) <> Some (s "2 3").
Proof.
  split; [reflexivity|]. split.
  { eexists. split; [reflexivity|]. split; reflexivity. }
  split; [reflexivity|]. split; [reflexivity|]. discriminate.
Qed.

(** C9, amended: [datablock_to_dict] takes the pieces of [data.split()],
    the runs of the payload between whitespace, in order, and returns
    the mapping that the assignments of the matching pieces build: a
    piece that does not match is passed over, the codes stand in the
    order of their first occurrence, each once, and the value of a code
    is the value of the last matching piece that carries it.  On a
    payload whose only whitespace is its line breaks the pieces are its
    lines.  The function has no state and no effect, so the same string
    gives the same mapping. *)
Theorem datablock_last_wins (data : str) :
  let pairs := parsed_pairs (split data) in
  let d := datablock_to_dict data in
  ((forall c, In c data -> isspace c = true -> is_line_break c = true) ->
   split data = spec_lines data) /\
  d = assign_all [] pairs /\
  (forall before line after,
      split data = before ++ line :: after ->
      re_match DATABLOCK_REGEX line = None ->
      d = fold_left parse_line (before ++ after) []) /\
  NoDup (keys d) /\
  keys d = uniq (map fst pairs) /\
  (forall code value before after,
      pairs = before ++ (code, value) :: after ->
      ~ In code (map fst after) ->
      dict_get code d = Some value) /\
  (forall code, ~ In code (map fst pairs) -> dict_get code d = None).
Proof.
  intros pairs d.
  split; [intros Hdata; now apply split_from_lines|].
  assert (Hd : d = assign_all [] pairs) by apply fold_parse_line.
  split; [assumption|].
  split.
  { intros before line after Hsplit Hnone. unfold d, datablock_to_dict.
    rewrite Hsplit, !fold_left_app. simpl. unfold parse_line at 2.
    now rewrite Hnone. }
  destruct (@keys_assign_all pairs [] (NoDup_nil _)) as [Hn Hk].
  rewrite Hd. split; [assumption|]. split; [assumption|].
  split.
  - intros code value before after Hpairs Hnot. rewrite Hpairs.
    unfold assign_all. rewrite fold_left_app. simpl.
    fold (assign_all (dict_set code value (fold_left
            (fun d0 kv => dict_set (fst kv) (snd kv) d0) before [])) after).
    rewrite assign_all_get_other by assumption.
    rewrite dict_get_set. now rewrite str_eqb_refl.
  - intros code Hnot. now rewrite assign_all_get_other.
Qed.

Lemma datablock_last_wins_witness :
  dict_get (s "1.8.0") (datablock_to_dict repeated_code) = Some (s "7")
  /\ dict_get (s "9.9.9") (datablock_to_dict repeated_code) = None
  /\ keys (datablock_to_dict repeated_code) = [s "1.8.0"; s "2.8.0"]
  /\ split repeated_code = spec_lines repeated_code.
Proof.
  destruct (datablock_last_wins repeated_code)
    as (Hlines & _ & _ & _ & Hkeys & Hlast & Hnone).
  split; [|split; [|split]]; cycle 3.
  { apply Hlines. intros c Hin.
    repeat (destruct Hin as [<-|Hin]; [vm_compute; intros H; congruence|]).
    destruct Hin. }
  - apply (Hlast (s "1.8.0") (s "7")
             [(s "1.8.0", s "1"); (s "2.8.0", s "5")] []); [reflexivity|].
    intros [].
  - apply Hnone. vm_compute. intuition discriminate.
  - rewrite Hkeys. reflexivity.
Defined.

(** C2 as stated fails: neither line yields a match whose value is the
    empty string, and the mapping has no entry with an empty value. *)
Lemma empty_values_not_parsed :
  ~ ((exists m, re_match DATABLOCK_REGEX empty_value_255 = Some m /\ group m 2 = [])
     /\ (exists m, re_match DATABLOCK_REGEX empty_value_01 = Some m /\ group m 2 = [])
     /\ exists code, dict_get code (datablock_to_dict empty_value_lines) = Some []).
Proof.
  intros [(m & Hm & _) _]. vm_compute in Hm. discriminate Hm.
Qed.

(** C2, amended: the value group of [DATABLOCK_REGEX] needs at least one
    character, so neither [0-0:C.51.4*255()] nor [0-0:C.51.4*01()]
    matches; [datablock_to_dict] passes over both and returns the empty
    mapping for them. *)
Theorem empty_values_skipped :
  split empty_value_lines = [empty_value_255; empty_value_01]
  /\ re_match DATABLOCK_REGEX empty_value_255 = None
  /\ re_match DATABLOCK_REGEX empty_value_01 = None
  /\ datablock_to_dict empty_value_lines = [].
Proof.
  repeat split; vm_compute; reflexivity.
Qed.

End ParserFacts.

(** ** The scheduler *)

Section SchedulerFacts.

Variable W : Type.
Variable T : Type.
Variable time : Time W T.

Local Abbreviation Processor := (Processor W T).
Local Abbreviation Scheduler := (Scheduler W T).
Local Abbreviation St := (St W T).
Local Abbreviation event := (event T).

Lemma reraise_or_log_run (msg : string) (e : exn) (st : St) :
  reraise_or_log msg e st =
  if isinstance_Exception e
  then (Ok tt, emit (EvLog "exception" msg) st)
  else (Raise e, st).
Proof. destruct e; reflexivity. Qed.

Lemma emit_emit (a b : event) (st : St) :
  emit b (emit a st) = mkSt (world st) (trace st ++ [a; b]).
Proof. unfold emit. simpl. now rewrite <- app_assoc. Qed.

(** One processor, step by step. *)
Lemma run_processor_run (timestamp : T) (data : str) (p : Processor) (st : St) :
  run_processor time timestamp data p st =
  let (_, w1) := time_time time (world st) in
  match process p timestamp data w1 with
  | (Ok u, w2) =>
      let (_, w3) := time_time time w2 in
      (Ok tt, mkSt w3 (trace st ++ processor_events timestamp data (p, Ok u)))
  | (Raise e, w2) =>
      (if isinstance_Exception e then Ok tt else Raise e,
       mkSt w2 (trace st ++ processor_events timestamp data (p, Raise e)))
  end.
Proof.
  unfold run_processor, try_except, bind, now, clock, call, logging.
  destruct (time_time time (world st)) as [t1 w1]. simpl.
  destruct (process p timestamp data w1) as [[u|e] w2]; simpl.
  - destruct (time_time time w2) as [t2 w3]. simpl.
    unfold emit. simpl. now rewrite <- app_assoc.
  - rewrite reraise_or_log_run. unfold processor_events. simpl.
    destruct (isinstance_Exception e); [|reflexivity].
    unfold emit. simpl. now rewrite <- app_assoc.
Qed.

Lemma calls_app (a b : list event) : calls (a ++ b) = calls a ++ calls b.
Proof.
  induction a as [|ev a IH]; simpl; [reflexivity|].
  destruct ev; simpl; now rewrite IH.
Qed.

Lemma calls_processor_events (timestamp : T) (data : str)
      (pr : Processor * result unit) :
  calls (processor_events timestamp data pr)
  = [(get_name (fst pr), timestamp, data)].
Proof.
  unfold processor_events. destruct (snd pr) as [u|e]; simpl; [reflexivity|].
  now destruct (isinstance_Exception e).
Qed.


Lemma calls_dispatch (timestamp : T) (data : str) (ps : list Processor) :
  forall rs,
    List.length rs = List.length ps ->
    calls (flat_map (processor_events timestamp data) (combine ps rs))
    = map (fun p => (get_name p, timestamp, data)) ps.
Proof.
  induction ps as [|p ps IH]; intros [|r rs] Hlen; try discriminate Hlen.
  - reflexivity.
  - cbn [combine flat_map map]. rewrite calls_app, calls_processor_events.
    simpl. f_equal. apply IH. now injection Hlen.
Qed.

(** [execute], step by step. *)
Lemma execute_run (self : Scheduler) (timestamp : T) (st : St) :
  execute time self timestamp st =
  let (_, w1) := time_time time (world st) in
  match mt174_read self w1 with
  | (Raise e, w2) =>
      reraise_or_log "Error in meter reader" e
        (mkSt w2 (trace st ++ [EvRead (Raise e)]))
  | (Ok data, w2) =>
      let (_, w3) := time_time time w2 in
      match for_each (processors self) (run_processor time timestamp data)
              (mkSt w3 (trace st ++ read_events data)) with
      | (Ok u, st') => (Ok u, st')
      | (Raise e, st') => reraise_or_log "Error in meter reader" e st'
      end
  end.
Proof.
  unfold execute, try_except, bind at 1, now at 1, clock.
  destruct (time_time time (world st)) as [t1 w1]. simpl.
  unfold bind at 1, call at 1. simpl.
  destruct (mt174_read self w1) as [[data|e] w2]; simpl; [|reflexivity].
  unfold bind at 1, now at 1, clock. simpl.
  destruct (time_time time w2) as [t2 w3]. simpl.
  unfold bind at 1, logging at 1. unfold bind at 1, logging at 1.
  unfold emit. simpl. rewrite <- !app_assoc. reflexivity.
Qed.

(** The outcomes of a cycle: one for each processor, and with
    processors that raise nothing but [Exception] none that ends the
    cycle. *)
Lemma outcomes_length (timestamp : T) (data : str) (ps : list Processor) :
  forall w, List.length (fst (outcomes time timestamp data ps w)) = List.length ps.
Proof.
  induction ps as [|p ps IH]; intros w; simpl; [reflexivity|].
  destruct (process p timestamp data _) as [r w2].
  specialize (IH match r with Ok _ => snd (time_time time w2) | Raise _ => w2 end).
  destruct (outcomes _ _ _ _ _) as [rs w']. simpl in *. now rewrite IH.
Qed.

Lemma outcomes_benign (timestamp : T) (data : str) (ps : list Processor) :
  only_exceptions ps ->
  forall w, Forall benign (fst (outcomes time timestamp data ps w)).
Proof.
  induction ps as [|p ps IH]; intros Hps w; simpl; [constructor|].
  assert (Hp := Hps p (or_introl eq_refl) timestamp data (snd (time_time time w))).
  assert (Hps' : only_exceptions ps).
  { intros q Hq. apply Hps. now right. }
  destruct (process p timestamp data _) as [r w2]. simpl in Hp.
  specialize (IH Hps' match r with Ok _ => snd (time_time time w2) | Raise _ => w2 end).
  destruct (outcomes _ _ _ _ _) as [rs w']. simpl in *. now constructor.
Qed.

(** The loop over processors that raise nothing but [Exception] is the
    sequence of their calls: the trace holds each call with what
    [process] answered, and the world is the one the last call left. *)
Lemma for_each_outcomes (timestamp : T) (data : str) (ps : list Processor) :
  only_exceptions ps ->
  forall st,
    for_each ps (run_processor time timestamp data) st
    = (Ok tt,
       mkSt (snd (outcomes time timestamp data ps (world st)))
            (trace st
             ++ flat_map (processor_events timestamp data)
                  (combine ps (fst (outcomes time timestamp data ps (world st)))))).
Proof.
  induction ps as [|p ps IH]; intros Hps st.
  - destruct st as [w tr]. simpl. now rewrite app_nil_r.
  - assert (Hp := Hps p (or_introl eq_refl) timestamp data).
    assert (Hps' : only_exceptions ps).
    { intros q Hq. apply Hps. now right. }
    cbn [for_each outcomes]. unfold bind. rewrite run_processor_run.
    destruct (time_time time (world st)) as [t1 w1]. cbn [snd].
    specialize (Hp w1).
    destruct (process p timestamp data w1) as [[u|e] w2]; simpl in Hp.
    + destruct (time_time time w2) as [t2 w3]. cbn [snd].
      rewrite (IH Hps'). cbn [world trace].
      destruct (outcomes time timestamp data ps w3) as [rs w'].
      cbn [fst snd combine flat_map]. now rewrite <- app_assoc.
    + rewrite Hp, (IH Hps'). cbn [world trace].
      destruct (outcomes time timestamp data ps w2) as [rs w'].
      cbn [fst snd combine flat_map]. now rewrite <- app_assoc.
Qed.

(** A cycle whose read succeeds, with processors that raise nothing but
    [Exception]. *)
Lemma execute_outcomes (self : Scheduler) (timestamp : T) (data : str) (st : St) :
  fst (mt174_read self (world (snd (clock time st)))) = Ok data ->
  only_exceptions (processors self) ->
  execute time self timestamp st
  = (Ok tt,
     mkSt (snd (outcomes time timestamp data (processors self) (read_world time self st)))
          (trace st ++ read_events data
           ++ flat_map (processor_events timestamp data)
                (combine (processors self)
                   (fst (outcomes time timestamp data (processors self)
                           (read_world time self st)))))).
Proof.
  intros Hread Hps. rewrite execute_run. unfold read_world, clock in *.
  destruct (time_time time (world st)) as [t1 w1]. cbn [snd world] in *.
  destruct (mt174_read self w1) as [r w2]. cbn [fst snd] in *. subst r.
  destruct (time_time time w2) as [t2 w3]. cbn [snd].
  rewrite (for_each_outcomes timestamp data Hps). cbn [world trace].
  now rewrite <- app_assoc.
Qed.

(** The part of a cycle's trace that belongs to one processor and the
    part of those after it. *)
Lemma dispatch_split (timestamp : T) (data : str) (before after : list Processor)
      (p : Processor) :
  forall rs r,
    nth_error rs (List.length before) = Some r ->
    flat_map (processor_events timestamp data) (combine (before ++ p :: after) rs)
    = flat_map (processor_events timestamp data) (combine before rs)
      ++ processor_events timestamp data (p, r)
      ++ flat_map (processor_events timestamp data)
           (combine after (skipn (S (List.length before)) rs)).
Proof.
  induction before as [|b before IH]; intros [|x rs] r Hr; try discriminate Hr.
  - injection Hr as ->. reflexivity.
  - cbn [app combine flat_map List.length skipn]. rewrite (IH rs r Hr).
    now rewrite <- app_assoc.
Qed.

(** One turn of the loop when the interval has elapsed. *)
Lemma while_true_due (self : Scheduler) (fuel : nat) (start t timestamp : T)
      (st st1 st2 st3 : St) (u : unit) :
  clock time st = (t, st1) ->
  t_lt time (t_sub time t start) (interval self) = false ->
  clock time st1 = (timestamp, st2) ->
  execute time self timestamp st2 = (Ok u, st3) ->
  while_true time (S fuel) self start st = while_true time fuel self timestamp st3.
Proof.
  intros H1 Hdue H2 Hex. simpl. now rewrite H1, Hdue, H2, Hex.
Qed.

(** C6: in a cycle whose read succeeds, with processors that raise
    nothing but [Exception], every registered processor is called, in
    the order of registration, with the timestamp and the payload of the
    cycle, and the trace holds each call with what its [process]
    answered.  A processor that raises is followed by the line that logs
    its exception and then by the calls of all the processors after it;
    [execute] returns and the loop goes on to its next turn. *)
Theorem consumer_failure_isolated (self : Scheduler) (fuel : nat)
        (start t timestamp : T) (data : str) (st st1 st2 : St) :
  clock time st = (t, st1) ->
  t_lt time (t_sub time t start) (interval self) = false ->
  clock time st1 = (timestamp, st2) ->
  fst (mt174_read self (world (snd (clock time st2)))) = Ok data ->
  only_exceptions (processors self) ->
  let rs := fst (outcomes time timestamp data (processors self)
                   (read_world time self st2)) in
  exists st3,
    execute time self timestamp st2 = (Ok tt, st3) /\
    world st3 = snd (outcomes time timestamp data (processors self)
                       (read_world time self st2)) /\
    List.length rs = List.length (processors self) /\
    Forall benign rs /\
    trace st3 = trace st2 ++ read_events data
                ++ flat_map (processor_events timestamp data)
                     (combine (processors self) rs) /\
    calls (trace st3) = calls (trace st2)
                        ++ map (fun p => (get_name p, timestamp, data)) (processors self) /\
    (forall before p after e,
        processors self = before ++ p :: after ->
        nth_error rs (List.length before) = Some (Raise e) ->
        isinstance_Exception e = true /\
        exists tr,
          trace st3
          = tr ++ [EvProcess (get_name p) timestamp data (Raise e);
                   EvLog "exception" "Error in processor"]
               ++ flat_map (processor_events timestamp data)
                    (combine after (skipn (S (List.length before)) rs)) /\
          calls (flat_map (processor_events timestamp data)
                   (combine after (skipn (S (List.length before)) rs)))
          = map (fun q => (get_name q, timestamp, data)) after) /\
    while_true time (S fuel) self start st = while_true time fuel self timestamp st3.
Proof.
  intros H1 Hdue H2 Hread Hps rs.
  assert (Hex := execute_outcomes self timestamp st2 Hread Hps). fold rs in Hex.
  assert (Hlen : List.length rs = List.length (processors self))
    by apply outcomes_length.
  assert (Hben : Forall benign rs) by now apply outcomes_benign.
  eexists. split; [exact Hex|]. cbn [world trace].
  refine (conj eq_refl (conj Hlen (conj Hben (conj eq_refl (conj _ (conj _ _)))))).
  - rewrite !calls_app, (@calls_dispatch timestamp data _ rs Hlen). reflexivity.
  - intros before p after e Hsplit Hnth.
    assert (He : isinstance_Exception e = true).
    { rewrite Forall_forall in Hben. exact (Hben _ (nth_error_In _ _ Hnth)). }
    split; [exact He|].
    rewrite Hsplit, (@dispatch_split timestamp data before after p rs _ Hnth).
    unfold processor_events at 2. cbn [fst snd]. rewrite He.
    eexists. split.
    + rewrite !app_assoc. reflexivity.
    + apply calls_dispatch. rewrite length_skipn, Hlen, Hsplit, length_app.
      cbn [List.length]. lia.
  - exact (@while_true_due self fuel start _ _ _ _ _ _ _ H1 Hdue H2 Hex).
Qed.

(** A cycle whose read raises an [Exception]. *)
Lemma execute_reader_raises (self : Scheduler) (timestamp : T) (e : exn) (st : St) :
  fst (mt174_read self (world (snd (clock time st)))) = Raise e ->
  isinstance_Exception e = true ->
  exists st',
    execute time self timestamp st = (Ok tt, st') /\
    trace st' = trace st
                ++ [EvRead (Raise e); EvLog "exception" "Error in meter reader"].
Proof.
  intros Hread He. rewrite execute_run. unfold clock in Hread.
  destruct (time_time time (world st)) as [t1 w1]. simpl in Hread.
  destruct (mt174_read self w1) as [r w2]. simpl in Hread. subst r.
  rewrite reraise_or_log_run, He. eexists. split; [reflexivity|].
  simpl. now rewrite <- app_assoc.
Qed.

(** C7: in a cycle whose read raises an [Exception], the exception is
    caught and logged, no processor is called, and the loop goes on to
    its next turn. *)
Theorem reader_failure_skips_cycle (self : Scheduler) (fuel : nat)
        (start t timestamp : T) (e : exn) (st st1 st2 : St) :
  clock time st = (t, st1) ->
  t_lt time (t_sub time t start) (interval self) = false ->
  clock time st1 = (timestamp, st2) ->
  fst (mt174_read self (world (snd (clock time st2)))) = Raise e ->
  isinstance_Exception e = true ->
  exists st3,
    execute time self timestamp st2 = (Ok tt, st3) /\
    trace st3 = trace st2
                ++ [EvRead (Raise e); EvLog "exception" "Error in meter reader"] /\
    calls (trace st3) = calls (trace st2) /\
    while_true time (S fuel) self start st = while_true time fuel self timestamp st3.
Proof.
  intros H1 Hdue H2 Hread He.
  destruct (@execute_reader_raises self timestamp e st2 Hread He)
    as (st3 & Hex & Htr).
  exists st3. repeat split; auto.
  - rewrite Htr, calls_app. simpl. now rewrite app_nil_r.
  - exact (@while_true_due self fuel start _ _ _ _ _ _ _ H1 Hdue H2 Hex).
Qed.

(** *** Leaving the loop *)

Lemma quiet_app (a b : list event) : quiet a -> quiet b -> quiet (a ++ b).
Proof. intros Ha Hb. apply Forall_app. now split. Qed.

Lemma leaves_app (o : option exn) (a b : list event) :
  quiet a -> leaves o b -> leaves o (a ++ b).
Proof.
  intros Ha. destruct o as [e|]; simpl.
  - intros (new0 & ev & -> & Hq & Hf). exists (a ++ new0), ev.
    rewrite app_assoc. repeat split; auto. now apply quiet_app.
  - now apply quiet_app.
Qed.

Lemma leaves_last (e : exn) (ev : event) :
  fatal ev = Some e -> leaves (Some e) [ev].
Proof. intros H. exists [], ev. repeat split; auto. constructor. Qed.

Lemma quiet_processor_events (timestamp : T) (data : str) (p : Processor)
      (r : result unit) :
  benign r -> quiet (processor_events timestamp data (p, r)).
Proof.
  intros Hr. unfold processor_events, quiet. simpl.
  destruct r as [u|e]; simpl in *.
  - repeat constructor.
  - rewrite Hr. repeat constructor. simpl. now rewrite Hr.
Qed.

Lemma run_processor_leaves (timestamp : T) (data : str) (p : Processor)
      (st st' : St) (r : result unit) :
  run_processor time timestamp data p st = (r, st') ->
  (forall e, r = Raise e -> isinstance_Exception e = false) /\
  exists new, trace st' = trace st ++ new /\ leaves (raised r) new.
Proof.
  rewrite run_processor_run.
  destruct (time_time time (world st)) as [t1 w1].
  destruct (process p timestamp data w1) as [[u|e] w2].
  - destruct (time_time time w2) as [t2 w3]. intros H. injection H as <- <-.
    split; [discriminate|]. eexists. split; [reflexivity|].
    now apply quiet_processor_events.
  - intros H. injection H as <- <-.
    destruct (isinstance_Exception e) eqn:He.
    + split; [discriminate|]. eexists. split; [reflexivity|].
      now apply quiet_processor_events.
    + split; [intros e' H; now injection H as <-|].
      eexists. split; [reflexivity|].
      unfold processor_events. simpl. rewrite He.
      apply leaves_last. simpl. now rewrite He.
Qed.

Lemma for_each_leaves (timestamp : T) (data : str) (ps : list Processor) :
  forall st st' r,
    for_each ps (run_processor time timestamp data) st = (r, st') ->
    (forall e, r = Raise e -> isinstance_Exception e = false) /\
    exists new, trace st' = trace st ++ new /\ leaves (raised r) new.
Proof.
  induction ps as [|p ps IH]; intros st st' r; simpl.
  - intros H. injection H as <- <-. split; [discriminate|].
    exists []. rewrite app_nil_r. split; [reflexivity | constructor].
  - unfold bind.
    destruct (run_processor time timestamp data p st) as [[u|e] st1] eqn:Hp;
      apply run_processor_leaves in Hp; destruct Hp as [He (new1 & Htr1 & Hl1)].
    + intros H. apply IH in H. destruct H as [He2 (new2 & Htr2 & Hl2)].
      split; [assumption|]. exists (new1 ++ new2).
      rewrite Htr2, Htr1, app_assoc. split; [reflexivity|].
      now apply leaves_app.
    + intros H. injection H as <- <-. split; [assumption|]. now exists new1.
Qed.

Lemma execute_leaves (self : Scheduler) (timestamp : T) (st st' : St)
      (r : result unit) :
  execute time self timestamp st = (r, st') ->
  exists new, trace st' = trace st ++ new /\ leaves (raised r) new.
Proof.
  rewrite execute_run.
  destruct (time_time time (world st)) as [t1 w1].
  destruct (mt174_read self w1) as [[data|e] w2].
  - destruct (time_time time w2) as [t2 w3].
    destruct (for_each _ _ _) as [[u|e] st1] eqn:Hf;
      apply for_each_leaves in Hf; destruct Hf as [He (new & Htr & Hl)];
      simpl in Htr.
    + intros H. injection H as <- <-. exists (read_events data ++ new).
      rewrite Htr, <- app_assoc. split; [reflexivity|].
      apply leaves_app; [repeat constructor | assumption].
    + rewrite reraise_or_log_run, (He e eq_refl).
      intros H. injection H as <- <-. exists (read_events data ++ new).
      rewrite Htr, <- app_assoc. split; [reflexivity|].
      apply leaves_app; [repeat constructor | assumption].
  - rewrite reraise_or_log_run. destruct (isinstance_Exception e) eqn:He.
    + intros H. injection H as <- <-. unfold emit. simpl.
      rewrite <- app_assoc. eexists. split; [reflexivity|].
      simpl. repeat constructor. simpl. now rewrite He.
    + intros H. injection H as <- <-. simpl.
      eexists. split; [reflexivity|].
      apply leaves_last. simpl. now rewrite He.
Qed.

Lemma while_true_leaves (self : Scheduler) (fuel : nat) :
  forall start st st' o,
    while_true time fuel self start st = (o, st') ->
    exists new, trace st' = trace st ++ new /\ leaves o new.
Proof.
  induction fuel as [|fuel IH]; intros start st st' o; simpl.
  - intros H. injection H as <- <-. exists []. rewrite app_nil_r.
    split; [reflexivity | constructor].
  - unfold clock at 1. destruct (time_time time (world st)) as [t w1].
    destruct (t_lt time (t_sub time t start) (interval self)).
    + unfold call. simpl. destruct (time_sleep time w1) as [[u|e] w2].
      * intros H. apply IH in H. destruct H as (new & Htr & Hl).
        simpl in Htr. exists ([EvSleep (Ok u)] ++ new).
        rewrite Htr, <- app_assoc. split; [reflexivity|].
        apply leaves_app; [repeat constructor | assumption].
      * intros H. injection H as <- <-. simpl.
        eexists. split; [reflexivity|]. now apply leaves_last.
    + unfold clock. simpl. destruct (time_time time w1) as [start' w2].
      destruct (execute time self start' _) as [[u|e] st3] eqn:Hex;
        apply execute_leaves in Hex; destruct Hex as (new1 & Htr1 & Hl1);
        simpl in Htr1.
      * intros H. apply IH in H. destruct H as (new & Htr & Hl).
        exists (new1 ++ new). rewrite Htr, Htr1, <- app_assoc.
        split; [reflexivity|]. now apply leaves_app.
      * intros H. injection H as <- <-. now exists new1.
Qed.

Lemma raised_is_fatal (ev : event) :
  raised_by ev = Some KeyboardInterrupt -> fatal ev = Some KeyboardInterrupt.
Proof.
  destruct ev as [[?|e]|? ? ? [?|e]|[?|e]|? ?]; simpl; try discriminate;
    intros H; injection H as ->; reflexivity.
Qed.

Lemma run_unfold (self : Scheduler) (fuel : nat) (st : St) :
  run time fuel self st =
  match while_true time fuel self (t_zero time) st with
  | (None, st') => (None, st')
  | (Some e, st') =>
      (Some (run_outcome e),
       if isinstance_Exception e
       then emit (EvLog "exception" "Error. Exiting...") st'
       else st')
  end.
Proof.
  unfold run. destruct (while_true _ _ _ _ _) as [[e|] st']; [|reflexivity].
  destruct e; reflexivity.
Qed.

(** C8, amended: a [KeyboardInterrupt] raised by any call of the run
    loop, by the sleep of the poll, by the reader or by a processor,
    ends the loop, and [run] catches it and returns 0; it never leaves
    [run] as an exception.  The loop ends only by an exception that
    [execute] does not catch: besides the interrupt, an [Exception] of
    the sleep, for which [run] logs and returns 1, and an exception
    outside [Exception], which [run] lets pass.  As long as [run] has not
    returned, no call has raised any of these. *)
Theorem interrupt_ends_run (self : Scheduler) (fuel : nat) (st st' : St)
        (out : option (result Z)) :
  run time fuel self st = (out, st') ->
  exists new,
    trace st' = trace st ++ new /\
    ((exists ev, In ev new /\ raised_by ev = Some KeyboardInterrupt) ->
     out = Some (Ok 0%Z)) /\
    out <> Some (Raise KeyboardInterrupt) /\
    match out with
    | None => quiet new
    | Some r =>
        exists new0 ev e,
          new = new0 ++ ev :: (if isinstance_Exception e
                               then [EvLog "exception" "Error. Exiting..."]
                               else []) /\
          quiet new0 /\ fatal ev = Some e /\ r = run_outcome e
    end.
Proof.
  rewrite run_unfold.
  destruct (while_true time fuel self (t_zero time) st) as [[e|] st1] eqn:Hw;
    apply while_true_leaves in Hw; destruct Hw as (new & Htr & Hl); simpl in Hl.
  - destruct Hl as (new0 & ev & -> & Hq & Hf).
    intros H. injection H as <- <-.
    exists (new0 ++ ev :: (if isinstance_Exception e
                           then [EvLog "exception" "Error. Exiting..."]
                           else [])).
    split; [|split; [|split]].
    + destruct (isinstance_Exception e); simpl; rewrite Htr, <- ?app_assoc;
        [reflexivity | reflexivity].
    + intros (ev' & Hin & Hki). apply raised_is_fatal in Hki.
      apply in_app_or in Hin. destruct Hin as [Hin|[<-|Hin]].
      * unfold quiet in Hq. rewrite Forall_forall in Hq.
        rewrite (Hq _ Hin) in Hki. discriminate Hki.
      * rewrite Hf in Hki. injection Hki as ->. reflexivity.
      * destruct (isinstance_Exception e); [|destruct Hin].
        destruct Hin as [<-|[]]. discriminate Hki.
    + destruct e; discriminate.
    + exists new0, ev, e. auto.
  - intros H. injection H as <- <-. exists new.
    split; [assumption|]. split; [|split; [discriminate | assumption]].
    intros (ev' & Hin & Hki). apply raised_is_fatal in Hki.
    unfold quiet in Hl. rewrite Forall_forall in Hl.
    rewrite (Hl _ Hin) in Hki. discriminate Hki.
Qed.

End SchedulerFacts.


(** ** The scheduler on the meter *)

Module SchedulerOnMeter.
Import MT174 MT174Spec MT174Facts Samples.

Lemma sample_processors_only_exceptions :
  only_exceptions (processors sample_scheduler).
Proof.
  intros p [<-|[<-|[]]] timestamp data w; simpl; auto.
Qed.

Lemma consumer_failure_isolated_witness :
  exists st3,
    execute steady_time sample_scheduler 100%Z (at_start (sample_port "C"%byte))
    = (Ok tt, st3) /\
    trace st3
    = [EvRead (Ok (map ascii_of_byte sample_body));
       EvLog "info" "Read data in %.3fs"; EvLog "debug" "Data: %s";
       EvProcess "publisher" 100%Z (map ascii_of_byte sample_body)
         (Raise (OSError "broker unreachable"));
       EvLog "exception" "Error in processor";
       EvProcess "recorder" 100%Z (map ascii_of_byte sample_body) (Ok tt);
       EvLog "info" "Processor (%s) in %.3fs"] /\
    calls (trace st3)
    = [("publisher"%string, 100%Z, map ascii_of_byte sample_body);
       ("recorder"%string, 100%Z, map ascii_of_byte sample_body)] /\
    (isinstance_Exception (OSError "broker unreachable") = true /\
     exists tr,
       trace st3
       = tr ++ [EvProcess "publisher" 100%Z (map ascii_of_byte sample_body)
                  (Raise (OSError "broker unreachable"));
                EvLog "exception" "Error in processor"]
            ++ [EvProcess "recorder" 100%Z (map ascii_of_byte sample_body) (Ok tt);
                EvLog "info" "Processor (%s) in %.3fs"] /\
       calls [EvProcess "recorder" 100%Z (map ascii_of_byte sample_body) (Ok tt);
              EvLog "info" "Processor (%s) in %.3fs"]
       = [("recorder"%string, 100%Z, map ascii_of_byte sample_body)]).
Proof.
  destruct (@consumer_failure_isolated Serial Z steady_time sample_scheduler 0
              0%Z 100%Z 100%Z (map ascii_of_byte sample_body)
              (at_start (sample_port "C"%byte)) (at_start (sample_port "C"%byte))
              (at_start (sample_port "C"%byte))
              eq_refl eq_refl eq_refl eq_refl sample_processors_only_exceptions)
    as (st3 & Hex & _ & _ & _ & Htr & Hcalls & Hfail & _).
  exists st3. split; [exact Hex|]. split; [exact Htr|]. split; [exact Hcalls|].
  exact (Hfail [] publisher [recorder] (OSError "broker unreachable")
           eq_refl eq_refl).
Defined.

Lemma reader_failure_skips_cycle_witness :
  exists st3,
    execute steady_time sample_scheduler 100%Z (at_start (port_with []))
    = (Ok tt, st3) /\
    calls (trace st3) = [].
Proof.
  destruct (@reader_failure_skips_cycle Serial Z steady_time sample_scheduler 0
              0%Z 100%Z 100%Z (Exception "Empty string instead of identification")
              (at_start (port_with [])) (at_start (port_with []))
              (at_start (port_with []))
              eq_refl eq_refl eq_refl eq_refl eq_refl)
    as (st3 & Hex & _ & Hcalls & _).
  exists st3. split; [exact Hex | exact Hcalls].
Defined.

(** The sample frame from the port to the mapping. *)
Example sample_reading :
  fst (MT174.read (sample_port "C"%byte)) = Ok (map ascii_of_byte sample_body)
  /\ Parser.datablock_to_dict (map ascii_of_byte sample_body)
     = [(s "1.8.0", s "0692930.505*kWh")].
Proof. split; reflexivity. Qed.

(** C4: when what follows the acknowledgement is not the start marker,
    a byte other than it or nothing within the timeout, [read] returns
    the empty string and raises nothing, and the scheduler calls every
    processor with that empty payload: the trace holds the call of each
    registered processor, in order, with the empty string and with what
    its [process] answered to it. *)
Theorem no_stx_empty_payload_dispatched (T : Type) (time : Time Serial T)
        (ps : list (Processor Serial T)) (interval : T) (timestamp : T)
        (st : St Serial T) (p1 : Serial) :
  let self := mkScheduler MT174.read ps interval in
  let p := world (snd (clock time st)) in
  open_error p = None ->
  handshake (opened p) = (Ok tt, p1) ->
  (forall l, rx p1 <> RxByte STX :: l) ->
  (forall e l, rx p1 <> RxError e :: l) ->
  only_exceptions ps ->
  let rs := fst (outcomes time timestamp [] ps (read_world time self st)) in
  fst (MT174.read p) = Ok [] /\
  exists st',
    execute time self timestamp st = (Ok tt, st') /\
    world st' = snd (outcomes time timestamp [] ps (read_world time self st)) /\
    List.length rs = List.length ps /\
    trace st' = trace st ++ read_events []
                ++ flat_map (processor_events timestamp []) (combine ps rs) /\
    calls (trace st') = calls (trace st)
                        ++ map (fun q => (get_name q, timestamp, [])) ps.
Proof.
  intros self p Hopen Hhs Hstx Herr Hps rs.
  assert (Hread : fst (MT174.read p) = Ok []).
  { exact (read_without_stx _ Hopen Hhs Hstx Herr). }
  split; [assumption|].
  assert (Hex := @execute_outcomes Serial T time self timestamp [] st Hread Hps).
  assert (Hlen : List.length rs = List.length ps) by apply outcomes_length.
  eexists. split; [exact Hex|]. cbn [world trace].
  refine (conj eq_refl (conj Hlen (conj eq_refl _))).
  rewrite !calls_app.
  change (processors self) with ps. fold rs.
  rewrite (@calls_dispatch Serial T timestamp [] ps rs Hlen). reflexivity.
Qed.

Lemma no_stx_empty_payload_dispatched_witness :
  fst (MT174.read noisy_port) = Ok [] /\
  exists st',
    execute steady_time sample_scheduler 100%Z (at_start noisy_port) = (Ok tt, st') /\
    trace st'
    = [EvRead (Ok []); EvLog "info" "Read data in %.3fs"; EvLog "debug" "Data: %s";
       EvProcess "publisher" 100%Z [] (Raise (OSError "broker unreachable"));
       EvLog "exception" "Error in processor";
       EvProcess "recorder" 100%Z [] (Ok tt);
       EvLog "info" "Processor (%s) in %.3fs"] /\
    calls (trace st') = [("publisher"%string, 100%Z, []); ("recorder"%string, 100%Z, [])].
Proof.
  destruct (@no_stx_empty_payload_dispatched Z steady_time [publisher; recorder]
              60%Z 100%Z (at_start noisy_port)
              (snd (handshake (opened noisy_port)))
              eq_refl eq_refl) as [Hread (st' & Hex & _ & _ & Htr & Hcalls)].
  - intros l H. discriminate H.
  - intros e l H. discriminate H.
  - exact sample_processors_only_exceptions.
  - split; [exact Hread|]. exists st'. split; [exact Hex|].
    split; [exact Htr | exact Hcalls].
Defined.

(** On a line without signals a failure of the meter costs the cycle
    and nothing else: whatever [read] raises is caught and logged and no
    processor is called. *)
Lemma meter_failure_skips_cycle (T : Type) (time : Time Serial T)
      (ps : list (Processor Serial T)) (interval : T) (timestamp : T)
      (st : St Serial T) (e : exn) :
  let self := mkScheduler MT174.read ps interval in
  let p := world (snd (clock time st)) in
  calm (rx p) ->
  (forall e0, open_error p = Some e0 -> isinstance_Exception e0 = true) ->
  fst (MT174.read p) = Raise e ->
  exists st',
    execute time self timestamp st = (Ok tt, st') /\
    trace st' = trace st
                ++ [EvRead (Raise e); EvLog "exception" "Error in meter reader"].
Proof.
  intros self p Hcalm Hopen Hread.
  apply (@execute_reader_raises Serial T time self timestamp e st Hread).
  exact (read_raises_only_exceptions _ Hcalm Hopen Hread).
Qed.

(** C8 as stated fails: an interrupt during the sleep of the poll, or in
    the middle of a frame, ends the loop, but [run] returns 0 instead of
    letting it pass; and a failing sleep ends the loop without any
    interrupt. *)
Lemma interrupt_not_propagated :
  run interrupted_time 1 sample_scheduler (at_start (port_with []))
  = (Some (Ok 0%Z), mkSt (port_with []) [EvSleep (Raise KeyboardInterrupt)])
  /\ fst (run steady_time 1 sample_scheduler (at_start interrupted_port))
     = Some (Ok 0%Z)
  /\ trace (snd (run steady_time 1 sample_scheduler (at_start interrupted_port)))
     = [EvRead (Raise KeyboardInterrupt)]
  /\ run broken_time 1 sample_scheduler (at_start (port_with []))
     = (Some (Ok 1%Z),
        mkSt (port_with [])
          [EvSleep (Raise (OSError "sleep length must be non-negative"));
           EvLog "exception" "Error. Exiting..."]).
Proof. repeat split; reflexivity. Qed.

Lemma interrupt_ends_run_witness :
  fst (run interrupted_time 1 sample_scheduler (at_start (port_with [])))
  = Some (Ok 0%Z).
Proof.
  destruct (@interrupt_ends_run Serial Z interrupted_time sample_scheduler 1
              (at_start (port_with [])) _ _ eq_refl)
    as (new & Htr & Hki & _).
  apply Hki. exists (EvSleep (Raise KeyboardInterrupt)).
  split; [|reflexivity].
  simpl in Htr. apply app_inv_head with (l := []) in Htr. rewrite <- Htr. now left.
Defined.

End SchedulerOnMeter.

(** ** More on the handshake and the frame *)

Module MT174MoreFacts.
Import MT174 MT174Spec MT174More MT174Facts Samples.

Lemma read_after_handshake (p p1 : Serial) :
  open_error p = None ->
  handshake (opened p) = (Ok tt, p1) ->
  fst (read p) = fst (read_datablock p1).
Proof.
  intros Hopen Hhs. rewrite (read_opened _ Hopen). unfold bind at 1.
  rewrite Hhs. now destruct (read_datablock p1).
Qed.

(** After the start marker an exception of the frame is the exception
    of step 4. *)
Lemma read_datablock_frame_raises (p : Serial) (l : list rx_event) (e : exn) :
  rx p = RxByte STX :: l ->
  fst (read_frame (set_rx p l)) = Raise e ->
  fst (read_datablock p) = Raise e.
Proof.
  intros Hrx Hf. unfold read_datablock, bind at 1, read1 at 1, on_rx at 1.
  rewrite Hrx. simpl. unfold bind at 1. unfold bind at 1.
  destruct (read_frame (set_rx p l)) as [[fr|e'] q]; simpl in Hf;
    [discriminate Hf|]. simpl. congruence.
Qed.

Lemma body_loop_silence (xs : bytes) :
  forall x bcc datablock rest,
    ~ In "!"%byte (x :: xs) ->
    silent rest ->
    fst (body_loop (map RxByte xs ++ rest) x bcc datablock)
    = Raise (Exception "Empty string instead of data").
Proof.
  induction xs as [|y xs IH]; intros x bcc datablock rest Hnot Hs.
  - assert (Hx : Byte.eqb x "!"%byte = false).
    { apply byte_eqb_neq. intros ->. apply Hnot. now left. }
    destruct Hs as [->|[l' ->]]; simpl; now rewrite Hx.
  - assert (Hx : Byte.eqb x "!"%byte = false).
    { apply byte_eqb_neq. intros ->. apply Hnot. now left. }
    simpl. rewrite Hx. simpl. apply IH; [|assumption].
    intros Hin. apply Hnot. now right.
Qed.

Lemma tail_loop_silence (xs : bytes) :
  forall x bcc rest,
    ~ In ETX (x :: xs) ->
    silent rest ->
    fst (tail_loop (map RxByte xs ++ rest) x bcc)
    = Raise (Exception "Empty string instead of data").
Proof.
  induction xs as [|y xs IH]; intros x bcc rest Hnot Hs.
  - assert (Hx : Byte.eqb x ETX = false).
    { apply byte_eqb_neq. intros ->. apply Hnot. now left. }
    destruct Hs as [->|[l' ->]]; simpl; now rewrite Hx.
  - assert (Hx : Byte.eqb x ETX = false).
    { apply byte_eqb_neq. intros ->. apply Hnot. now left. }
    simpl. rewrite Hx. simpl. apply IH; [|assumption].
    intros Hin. apply Hnot. now right.
Qed.

Lemma read_frame_silence (p : Serial) (bs : bytes) (rest : list rx_event) :
  rx p = map RxByte bs ++ rest ->
  silent rest ->
  (~ In "!"%byte bs \/
   exists body tail, bs = body ++ "!"%byte :: tail /\
                     ~ In "!"%byte body /\ ~ In ETX tail) ->
  fst (read_frame p) = Raise (Exception "Empty string instead of data").
Proof.
  intros Hrx Hs Hcut. unfold read_frame, bind at 1, read1, on_rx at 1.
  rewrite Hrx.
  destruct Hcut as [Hnot|(body & tail & -> & Hb & Ht)].
  - destruct bs as [|x xs]; simpl.
    + destruct Hs as [->|[l' ->]]; reflexivity.
    + unfold bind, on_rx. simpl.
      assert (H := @body_loop_silence xs x 0%N [] rest Hnot Hs).
      destruct (body_loop _ _ _ _) as [[r|e] q]; simpl in *; congruence.
  - destruct (body ++ ["!"%byte]) as [|x xs0] eqn:Hx; [now destruct body|].
    replace (body ++ "!"%byte :: tail) with ((x :: xs0) ++ tail)
      by (rewrite <- Hx, <- app_assoc; reflexivity).
    simpl. rewrite map_app, <- app_assoc.
    unfold bind at 1, on_rx at 1. simpl.
    rewrite (@body_loop_frame body x xs0 0%N [] _ Hb (eq_sym Hx)). simpl.
    unfold bind, on_rx. simpl.
    assert (Hnot : ~ In ETX ("!"%byte :: tail)).
    { intros [H|H]; [discriminate H | now apply Ht]. }
    assert (H := @tail_loop_silence tail "!"%byte (xor_from 0 body) rest Hnot Hs).
    destruct (tail_loop _ _ _) as [[r|e] q]; simpl in *; congruence.
Qed.

(** A frame that breaks off, before the exclamation mark or before the
    end marker, with nothing more within the timeout, is reported as
    incomplete and nothing of it is returned. *)
Theorem truncated_frame_reported (p p1 : Serial) (bs : bytes) (rest : list rx_event) :
  open_error p = None ->
  handshake (opened p) = (Ok tt, p1) ->
  rx p1 = map RxByte (STX :: bs) ++ rest ->
  silent rest ->
  (~ In "!"%byte bs \/
   exists body tail, bs = body ++ "!"%byte :: tail /\
                     ~ In "!"%byte body /\ ~ In ETX tail) ->
  fst (read p) = Raise (Exception "Empty string instead of data").
Proof.
  intros Hopen Hhs Hrx Hs Hcut.
  rewrite (read_after_handshake _ Hopen Hhs).
  apply (@read_datablock_frame_raises p1 (map RxByte bs ++ rest)); [exact Hrx|].
  now apply (@read_frame_silence _ bs rest).
Qed.

Lemma truncated_frame_reported_witness :
  fst (read (port_with (map RxByte (sample_ident ++ STX :: sample_body))))
  = Raise (Exception "Empty string instead of data")
  /\ fst (read (port_with (map RxByte (sample_ident ++ STX :: sample_body
                                          ++ "!"%byte :: crlf))))
     = Raise (Exception "Empty string instead of data").
Proof.
  split.
  - apply (@truncated_frame_reported
             (port_with (map RxByte (sample_ident ++ STX :: sample_body)))
             (snd (handshake (opened (port_with
                (map RxByte (sample_ident ++ STX :: sample_body))))))
             sample_body [] eq_refl eq_refl eq_refl).
    + now left.
    + left. vm_compute. intuition discriminate.
  - apply (@truncated_frame_reported
             (port_with (map RxByte (sample_ident ++ STX :: sample_body
                                       ++ "!"%byte :: crlf)))
             (snd (handshake (opened (port_with
                (map RxByte (sample_ident ++ STX :: sample_body
                               ++ "!"%byte :: crlf))))))
             (sample_body ++ "!"%byte :: crlf) [] eq_refl eq_refl eq_refl).
    + now left.
    + right. exists sample_body, crlf. split; [reflexivity|].
      split; vm_compute; intuition discriminate.
Defined.

(** A frame whose check character does not come within the timeout
    fails in [ord]: the exception is a [TypeError], not the one of a
    wrong checksum. *)
Theorem missing_check_character (p p1 : Serial) (body tail : bytes)
        (rest : list rx_event) :
  open_error p = None ->
  handshake (opened p) = (Ok tt, p1) ->
  rx p1 = map RxByte (STX :: body ++ "!"%byte :: tail ++ [ETX]) ++ rest ->
  ~ In "!"%byte body ->
  ~ In ETX tail ->
  silent rest ->
  fst (read p)
  = Raise (TypeError "ord() expected a character, but string of length 0 found").
Proof.
  intros Hopen Hhs Hrx Hb Ht Hs.
  rewrite (read_after_handshake _ Hopen Hhs).
  unfold read_datablock, bind at 1, read1 at 1, on_rx at 1.
  rewrite Hrx. simpl. unfold bind at 1. unfold bind at 1.
  rewrite (@read_frame_ok (set_rx p1 (map RxByte (body ++ "!"%byte :: tail ++ [ETX]) ++ rest))
             body tail rest Hb Ht eq_refl).
  unfold bind, read1, on_rx. simpl.
  destruct Hs as [->|[l' ->]]; reflexivity.
Qed.

Lemma missing_check_character_witness :
  fst (read (port_with (map RxByte (sample_ident ++ STX :: sample_body
                                      ++ "!"%byte :: crlf ++ [ETX]))))
  = Raise (TypeError "ord() expected a character, but string of length 0 found").
Proof.
  apply (@missing_check_character
           (port_with (map RxByte (sample_ident ++ STX :: sample_body
                                     ++ "!"%byte :: crlf ++ [ETX])))
           (snd (handshake (opened (port_with
              (map RxByte (sample_ident ++ STX :: sample_body
                             ++ "!"%byte :: crlf ++ [ETX]))))))
           sample_body crlf [] eq_refl eq_refl eq_refl).
  - vm_compute. intuition discriminate.
  - vm_compute. intuition discriminate.
  - now left.
Defined.

(** A datablock with a byte above 127 does not pass the decoding, even
    with the right check character. *)
Theorem high_byte_not_decoded (p p1 : Serial) (body tail : bytes) (c : byte)
        (rest : list rx_event) :
  open_error p = None ->
  handshake (opened p) = (Ok tt, p1) ->
  rx p1 = map RxByte (STX :: body ++ "!"%byte :: tail ++ [ETX; c]) ++ rest ->
  ~ In "!"%byte body ->
  ~ In ETX tail ->
  ord c = xor_bytes (body ++ "!"%byte :: tail ++ [ETX]) ->
  Exists (fun x => (128 <= ord x)%N) body ->
  fst (read p) = Raise UnicodeDecodeError.
Proof.
  intros Hopen Hhs Hrx Hb Ht Hc Hhigh.
  rewrite (read_after_handshake _ Hopen Hhs).
  rewrite (read_datablock_frame _ _ _ _ Hb Ht Hrx). simpl.
  rewrite <- Hc, N.eqb_refl. unfold decode_us_ascii.
  replace (forallb _ body) with false; [reflexivity|].
  symmetry. apply not_true_iff_false. intros Hall.
  rewrite forallb_forall in Hall. apply Exists_exists in Hhigh.
  destruct Hhigh as (x & Hin & Hx). apply Hall in Hin.
  apply N.ltb_lt in Hin. lia.
Qed.

Lemma high_byte_not_decoded_witness :
  fst (read (port_with (map RxByte (sample_ident
                                      ++ [STX; xe9; "!"%byte; ETX; xcb]))))
  = Raise UnicodeDecodeError.
Proof.
  apply (@high_byte_not_decoded
           (port_with (map RxByte (sample_ident ++ [STX; xe9; "!"%byte; ETX; xcb])))
           (snd (handshake (opened (port_with
              (map RxByte (sample_ident ++ [STX; xe9; "!"%byte; ETX; xcb]))))))
           [xe9] [] xcb [] eq_refl eq_refl eq_refl).
  - vm_compute. intuition discriminate.
  - intros [].
  - reflexivity.
  - constructor. vm_compute. discriminate.
Defined.

(** *** The checksum and a damaged byte *)

Lemma xor_from_acc (l : bytes) :
  forall acc, xor_from acc l = N.lxor acc (xor_bytes l).
Proof.
  unfold xor_bytes, xor_from. induction l as [|b l IH]; intros acc; simpl.
  - now rewrite N.lxor_0_r.
  - rewrite IH, (IH (ord b)), N.lxor_assoc. reflexivity.
Qed.

Lemma lxor_cancel_l (a x y : N) : N.lxor a x = N.lxor a y -> x = y.
Proof.
  intros H. apply (f_equal (N.lxor a)) in H.
  now rewrite <- !N.lxor_assoc, N.lxor_nilpotent, !N.lxor_0_l in H.
Qed.

Lemma ord_inj (a b : byte) : ord a = ord b -> a = b.
Proof.
  unfold ord. intros H.
  assert (Ha := Byte.of_to_N a). rewrite H, Byte.of_to_N in Ha. congruence.
Qed.

(** Two sequences that differ in one byte have different checksums. *)
Lemma xor_bytes_one_byte (u v : bytes) (b b' : byte) :
  b <> b' -> xor_bytes (u ++ b :: v) <> xor_bytes (u ++ b' :: v).
Proof.
  intros Hne H. unfold xor_bytes in H.
  rewrite !xor_from_app in H. simpl in H.
  rewrite (xor_from_acc v), (xor_from_acc v (N.lxor _ (ord b'))) in H.
  rewrite !N.lxor_assoc in H. apply lxor_cancel_l in H.
  rewrite (N.lxor_comm (ord b)), (N.lxor_comm (ord b')) in H.
  apply lxor_cancel_l in H. now apply ord_inj in H.
Qed.

(** Where the reader finds the frame's two marks, the first
    exclamation mark and the first end marker after it, and then a
    check character: if the bytes it has read from the datablock
    through the end marker differ in exactly one place from a sequence
    that the check character fits, the frame is rejected.  So a damaged
    byte is detected as long as the damage leaves the two marks where
    they are; a byte that becomes or ceases to be one of the marks moves
    the end of what the reader sums, and is not covered. *)
Theorem damaged_byte_rejected (p p1 : Serial) (body tail u v : bytes)
        (b b' c : byte) (rest : list rx_event) :
  open_error p = None ->
  handshake (opened p) = (Ok tt, p1) ->
  rx p1 = map RxByte (STX :: body ++ "!"%byte :: tail ++ [ETX; c]) ++ rest ->
  ~ In "!"%byte body ->
  ~ In ETX tail ->
  body ++ "!"%byte :: tail ++ [ETX] = u ++ b' :: v ->
  b <> b' ->
  ord c = xor_bytes (u ++ b :: v) ->
  fst (read p) = Raise (Exception "Result not OK, try again").
Proof.
  intros Hopen Hhs Hrx Hb Ht Hframe Hne Hc.
  rewrite (read_after_handshake _ Hopen Hhs).
  rewrite (read_datablock_frame _ _ _ _ Hb Ht Hrx). simpl.
  rewrite Hframe, Hc.
  replace (N.eqb _ _) with false; [reflexivity|].
  symmetry. apply N.eqb_neq. intros H.
  exact (xor_bytes_one_byte u v Hne (eq_sym H)).
Qed.

Lemma damaged_byte_rejected_witness :
  fst (read (port_with (map RxByte (sample_ident ++ STX :: x31 :: sample_body
                                      ++ "!"%byte :: crlf ++ [ETX; x73]))))
  = Raise (Exception "Result not OK, try again").
Proof.
  apply (@damaged_byte_rejected
           (port_with (map RxByte (sample_ident ++ STX :: x31 :: sample_body
                                     ++ "!"%byte :: crlf ++ [ETX; x73])))
           (snd (handshake (opened (port_with
              (map RxByte (sample_ident ++ STX :: x31 :: sample_body
                             ++ "!"%byte :: crlf ++ [ETX; x73]))))))
           (x31 :: sample_body) crlf []
           (sample_body ++ "!"%byte :: crlf ++ [ETX]) x30 x31 x73 []
           eq_refl eq_refl eq_refl).
  - vm_compute. intuition discriminate.
  - vm_compute. intuition discriminate.
  - reflexivity.
  - discriminate.
  - reflexivity.
Defined.

(** *** What a returned payload holds *)

Lemma N_of_ascii_of_byte (b : byte) : N_of_ascii (ascii_of_byte b) = Byte.to_N b.
Proof.
  rewrite ascii_of_byte_via_N. apply N_ascii_embedding.
  assert (H := Byte.to_N_bounded b). lia.
Qed.

(** Whatever the line delivers, a payload that [read] returns is made of
    7-bit characters and holds no exclamation mark. *)
Theorem payload_is_ascii (p q : Serial) (payload : str) :
  read p = (Ok payload, q) ->
  Forall (fun ch => (N_of_ascii ch < 128)%N /\ ch <> "!"%char) payload.
Proof.
  intros Hread.
  destruct (open_error p) as [e|] eqn:Hopen.
  { unfold read, bind, serial_Serial in Hread. rewrite Hopen in Hread.
    discriminate Hread. }
  rewrite (read_opened _ Hopen) in Hread. unfold bind at 1 in Hread.
  destruct (handshake (opened p)) as [[[]|e] p1]; [|discriminate Hread].
  destruct (read_datablock p1) as [r q1] eqn:Hd. injection Hread as -> _.
  destruct payload as [|ch payload]; [constructor|].
  destruct (read_datablock_inv _ Hd) as (body & tail & c & rest & _ & Hb & _ & _ & Hdec);
    [discriminate|].
  unfold decode_us_ascii in Hdec.
  destruct (forallb _ body) eqn:Hall; [|discriminate Hdec].
  injection Hdec as <-. rewrite forallb_forall in Hall.
  apply Forall_forall. intros a Ha. apply in_map_iff in Ha.
  destruct Ha as (x & <- & Hx). split.
  - rewrite N_of_ascii_of_byte. apply N.ltb_lt. now apply Hall.
  - intros Heq. apply Hb.
    apply (f_equal byte_of_ascii) in Heq.
    rewrite byte_of_ascii_of_byte in Heq. now subst x.
Qed.

Lemma payload_is_ascii_witness :
  Forall (fun ch => (N_of_ascii ch < 128)%N /\ ch <> "!"%char)
         (map ascii_of_byte sample_body).
Proof.
  exact (@payload_is_ascii (sample_port "C"%byte) _ _ eq_refl).
Defined.

(** *** What [read] does to the port *)









End MT174MoreFacts.

(** ** More on the datablock parser *)

Module ParserMoreFacts.
Import Re Parser ParserSpec ParserMore ParserFacts Samples.

(** *** The anatomy of a match *)

Lemma plus_rests_inv (p : ascii -> bool) (t r : str) :
  In r (plus_rests p t) ->
  exists w, t = w ++ r /\ w <> [] /\ Forall (fun c => p c = true) w.
Proof.
  revert r. induction t as [|c t IH]; intros r Hin; simpl in Hin; [destruct Hin|].
  destruct (p c) eqn:Hc; [|destruct Hin].
  apply in_app_or in Hin. destruct Hin as [Hin|[<-|[]]].
  - destruct (IH _ Hin) as (w & -> & _ & Hw).
    exists (c :: w). repeat split; [discriminate | now constructor].
  - exists [c]. repeat split; [discriminate | now repeat constructor].
Qed.

Lemma plus_rests_In (p : ascii -> bool) (w r : str) :
  w <> [] -> Forall (fun c => p c = true) w -> In r (plus_rests p (w ++ r)).
Proof.
  induction w as [|c w IH]; intros Hne Hw; [congruence|].
  inversion Hw as [|? ? Hc Hw']; subst. simpl. rewrite Hc.
  apply in_or_app. destruct w as [|c' w].
  - right. now left.
  - left. apply IH; [discriminate | assumption].
Qed.

Lemma chr_inv (c : ascii) (t t' : str) (g g' : groups) :
  In (t', g') (matches (Chr c) t g) -> t = c :: t' /\ g' = g.
Proof.
  simpl. destruct t as [|x t]; [intros []|].
  destruct (Ascii.eqb x c) eqn:Hx; [|intros []].
  apply Ascii.eqb_eq in Hx. subst x. intros [H|[]]. now injection H as <- <-.
Qed.

Lemma cls_inv (p : ascii -> bool) (t t' : str) (g g' : groups) :
  In (t', g') (matches (Cls p) t g) ->
  exists x, t = x :: t' /\ p x = true /\ g' = g.
Proof.
  simpl. destruct t as [|x t]; [intros []|].
  destruct (p x) eqn:Hx; [|intros []].
  intros [H|[]]. injection H as <- <-. now exists x.
Qed.

Lemma plus_inv (p : ascii -> bool) (t t' : str) (g g' : groups) :
  In (t', g') (matches (Plus p) t g) ->
  g' = g /\ exists w, t = w ++ t' /\ w <> [] /\ Forall (fun c => p c = true) w.
Proof.
  simpl. rewrite in_map_iff. intros (r & H & Hin). injection H as <- <-.
  split; [reflexivity|]. now apply plus_rests_inv.
Qed.

Lemma cat_inv (r1 r2 : regex) (t t' : str) (g g' : groups) :
  In (t', g') (matches (Cat r1 r2) t g) ->
  exists t1 g1, In (t1, g1) (matches r1 t g) /\ In (t', g') (matches r2 t1 g1).
Proof.
  simpl. rewrite in_flat_map. intros ([t1 g1] & H1 & H2). now exists t1, g1.
Qed.

Lemma consumed_app (w t' : str) : consumed (w ++ t') t' = w.
Proof.
  unfold consumed. rewrite length_app, Nat.add_sub.
  rewrite firstn_app, Nat.sub_diag, firstn_all. simpl. apply app_nil_r.
Qed.

Lemma code_inv (t t' : str) (g g' : groups) :
  In (t', g') (matches CODE t g) ->
  g' = g /\ exists code, t = code ++ t' /\ code_shape code.
Proof.
  unfold CODE. intros H.
  apply cat_inv in H. destruct H as (t1 & g1 & H1 & H).
  apply plus_inv in H1. destruct H1 as (-> & a & -> & Ha & Hpa).
  apply cat_inv in H. destruct H as (t2 & g2 & H2 & H).
  apply chr_inv in H2. destruct H2 as [-> ->].
  apply cat_inv in H. destruct H as (t3 & g3 & H3 & H).
  apply plus_inv in H3. destruct H3 as (-> & b & -> & Hb & Hpb).
  apply cat_inv in H. destruct H as (t4 & g4 & H4 & H).
  apply chr_inv in H4. destruct H4 as [-> ->].
  apply plus_inv in H. destruct H as (-> & d & -> & Hd & Hpd).
  split; [reflexivity|].
  exists (a ++ "."%char :: b ++ "."%char :: d). split.
  - rewrite <- !app_assoc. simpl. rewrite <- !app_assoc. reflexivity.
  - exists a, b, d. repeat split; assumption.
Qed.

Lemma opt_inv (r : regex) (t t' : str) (g g' : groups) :
  In (t', g') (matches (Opt r) t g) ->
  In (t', g') (matches r t g) \/ (t' = t /\ g' = g).
Proof.
  simpl. intros H. apply in_app_or in H. destruct H as [H|[H|[]]]; [now left|].
  right. now injection H as <- <-.
Qed.

Lemma classifier_inv (t t' : str) (g g' : groups) :
  In (t', g')
     (matches (Opt (Cat (Cls isdecimal) (Cat (Chr "-")
                   (Cat (Cls isdecimal) (Chr ":"))))) t g) ->
  g' = g /\ exists pre, t = pre ++ t' /\ classifier pre.
Proof.
  intros H. apply opt_inv in H. destruct H as [H|[-> ->]].
  - apply cat_inv in H. destruct H as (t1 & g1 & H1 & H).
    apply cls_inv in H1. destruct H1 as (d1 & -> & Hd1 & ->).
    apply cat_inv in H. destruct H as (t2 & g2 & H2 & H).
    apply chr_inv in H2. destruct H2 as [-> ->].
    apply cat_inv in H. destruct H as (t3 & g3 & H3 & H).
    apply cls_inv in H3. destruct H3 as (d2 & -> & Hd2 & ->).
    apply chr_inv in H. destruct H as [-> ->].
    split; [reflexivity|]. exists [d1; "-"%char; d2; ":"%char].
    split; [reflexivity|]. right. now exists d1, d2.
  - split; [reflexivity|]. exists []. split; [reflexivity | now left].
Qed.

Lemma channel_inv (t t' : str) (g g' : groups) :
  In (t', g')
     (matches (Opt (Cat (Chr "*") (Cat (Chr "2") (Cat (Chr "5") (Chr "5"))))) t g) ->
  g' = g /\ exists suf, t = suf ++ t' /\ channel suf.
Proof.
  intros H. apply opt_inv in H. destruct H as [H|[-> ->]].
  - apply cat_inv in H. destruct H as (t1 & g1 & H1 & H).
    apply chr_inv in H1. destruct H1 as [-> ->].
    apply cat_inv in H. destruct H as (t2 & g2 & H2 & H).
    apply chr_inv in H2. destruct H2 as [-> ->].
    apply cat_inv in H. destruct H as (t3 & g3 & H3 & H).
    apply chr_inv in H3. destruct H3 as [-> ->].
    apply chr_inv in H. destruct H as [-> ->].
    split; [reflexivity|]. exists (s "*255"). split; [reflexivity | now right].
  - split; [reflexivity|]. exists []. split; [reflexivity | now left].
Qed.

Lemma field_inv (t t' : str) (g g' : groups) :
  In (t', g') (matches FIELD t g) ->
  exists code suf value,
    t = code ++ suf ++ "("%char :: value ++ ")"%char :: t' /\
    code_shape code /\ channel suf /\
    value <> [] /\ Forall (fun c => dot c = true) value /\
    g' = set_group 2 value (set_group 1 code g).
Proof.
  unfold FIELD. intros H.
  apply cat_inv in H. destruct H as (t1 & g1 & H1 & H).
  cbn [matches] in H1. apply in_map_iff in H1.
  destruct H1 as ([t1' gc] & Heq & H1). cbn [fst snd] in Heq.
  injection Heq as -> <-.
  apply code_inv in H1. destruct H1 as (-> & code & -> & Hcode).
  rewrite consumed_app in H.
  apply cat_inv in H. destruct H as (t2 & g2 & H2 & H).
  apply channel_inv in H2. destruct H2 as (-> & suf & -> & Hsuf).
  apply cat_inv in H. destruct H as (t3 & g3 & H3 & H).
  apply chr_inv in H3. destruct H3 as [-> ->].
  apply cat_inv in H. destruct H as (t4 & g4 & H4 & H).
  cbn [matches] in H4. apply in_map_iff in H4.
  destruct H4 as ([t4' gv] & Heq & H4). cbn [fst snd] in Heq.
  injection Heq as -> <-.
  apply in_map_iff in H4. destruct H4 as (r & Heq & H4).
  injection Heq as -> <-.
  apply plus_rests_inv in H4. destruct H4 as (value & -> & Hv & Hpv).
  rewrite consumed_app in H.
  apply chr_inv in H. destruct H as [-> ->].
  exists code, suf, value. repeat split; assumption.
Qed.

Lemma datablock_regex_split (t : str) (g : groups) :
  matches DATABLOCK_REGEX t g
  = flat_map (fun m => matches FIELD (fst m) (snd m))
      (matches (Cat (Cls isdecimal) (Cat (Chr "-")
                   (Cat (Cls isdecimal) (Chr ":")))) t g)
    ++ matches FIELD t g.
Proof.
  change DATABLOCK_REGEX with
    (Cat (Opt (Cat (Cls isdecimal) (Cat (Chr "-")
                   (Cat (Cls isdecimal) (Chr ":"))))) FIELD).
  change (matches (Cat ?o FIELD) t g)
    with (flat_map (fun m => matches FIELD (fst m) (snd m)) (matches o t g)).
  change (matches (Opt ?r) t g) with (matches r t g ++ [(t, g)]).
  rewrite flat_map_app. f_equal. simpl. apply app_nil_r.
Qed.

Lemma datablock_regex_inv (t t' : str) (g g' : groups) :
  In (t', g') (matches DATABLOCK_REGEX t g) ->
  exists pre code suf value,
    t = pre ++ code ++ suf ++ "("%char :: value ++ ")"%char :: t' /\
    classifier pre /\ code_shape code /\ channel suf /\
    value <> [] /\ Forall (fun c => dot c = true) value /\
    g' = set_group 2 value (set_group 1 code g).
Proof.
  intros H.
  change DATABLOCK_REGEX with
    (Cat (Opt (Cat (Cls isdecimal) (Cat (Chr "-")
                   (Cat (Cls isdecimal) (Chr ":"))))) FIELD) in H.
  apply cat_inv in H. destruct H as (t1 & g1 & H1 & H).
  apply classifier_inv in H1. destruct H1 as (-> & pre & -> & Hpre).
  apply field_inv in H.
  destruct H as (code & suf & value & -> & Hc & Hs & Hv & Hd & ->).
  exists pre, code, suf, value. repeat split; assumption.
Qed.

(** Every entry of the mapping stands in the payload: some piece of
    [data.split()] reads classifier, code, channel suffix, opening
    bracket, value, closing bracket, with the classifier and the suffix
    optional, and the code has the shape of a code. *)
Theorem entry_anatomy (data code value : str) :
  In (code, value) (datablock_to_dict data) ->
  exists line pre suf rest,
    In line (split data) /\
    line = pre ++ code ++ suf ++ "("%char :: value ++ ")"%char :: rest /\
    classifier pre /\ code_shape code /\ channel suf.
Proof.
  intros Hin. unfold datablock_to_dict in Hin.
  rewrite fold_parse_line in Hin. apply assign_all_In in Hin.
  destruct Hin as [[]|Hin].
  apply parsed_pairs_In in Hin. destruct Hin as (line & m & Hline & Hm & Hkv).
  apply re_match_In in Hm. destruct Hm as [t' Hm].
  apply datablock_regex_inv in Hm.
  destruct Hm as (pre & code' & suf & value' & Heq & Hpre & Hcode & Hsuf & _ & _ & ->).
  injection Hkv as -> ->. exists line, pre, suf, t'.
  repeat split; assumption.
Qed.

Lemma entry_anatomy_witness :
  exists line pre suf rest,
    In line (split (s "1-0:1.8.0*255(0692930.505*kWh)")) /\
    line = pre ++ s "1.8.0" ++ suf ++ "("%char :: s "0692930.505*kWh" ++ ")"%char :: rest /\
    classifier pre /\ code_shape (s "1.8.0") /\ channel suf.
Proof.
  apply (@entry_anatomy (s "1-0:1.8.0*255(0692930.505*kWh)")).
  vm_compute. now left.
Defined.

(** *** Lists cut at a character *)

(** A list is cut at the first occurrence of [c] in one way only. *)
Lemma first_cut {A} (c : A) (l1 r1 l2 r2 : list A) :
  l1 ++ c :: r1 = l2 ++ c :: r2 ->
  ~ In c l2 -> ~ In c r2 ->
  l1 = l2 /\ r1 = r2.
Proof.
  revert l1. induction l2 as [|y l2 IH]; intros l1 Heq Hl Hr.
  - destruct l1 as [|x l1]; simpl in Heq.
    + injection Heq as ->. auto.
    + injection Heq as -> Heq. exfalso. apply Hr. rewrite <- Heq.
      apply in_or_app. right. now left.
  - destruct l1 as [|x l1]; simpl in Heq.
    + injection Heq as -> _. exfalso. apply Hl. now left.
    + injection Heq as -> Heq.
      destruct (IH l1 Heq) as [-> ->]; auto.
      intros Hin. apply Hl. now right.
Qed.

(** A list is cut in front of its last run of [P] in one way only. *)
Lemma last_cut {A} (P : A -> Prop) (x y d e : list A) (c1 c2 : A) :
  x ++ c1 :: d = y ++ c2 :: e ->
  Forall P d -> Forall P e -> ~ P c1 -> ~ P c2 ->
  x = y /\ c1 = c2 /\ d = e.
Proof.
  revert y. induction x as [|x0 x IH]; intros y Heq Hd He H1 H2.
  - destruct y as [|y0 y]; simpl in Heq.
    + injection Heq as -> ->. auto.
    + injection Heq as -> Heq. exfalso. apply H2.
      rewrite Forall_forall in Hd. apply Hd. rewrite Heq.
      apply in_or_app. right. now left.
  - destruct y as [|y0 y]; simpl in Heq.
    + injection Heq as -> Heq. exfalso. apply H1.
      rewrite Forall_forall in He. apply He. rewrite <- Heq.
      apply in_or_app. right. now left.
    + injection Heq as -> Heq.
      destruct (IH y Heq) as (-> & -> & ->); auto.
Qed.

Lemma digits_no_bracket (ds : str) :
  Forall (fun c => isdecimal c = true) ds -> ~ In "("%char ds.
Proof.
  intros H Hin. rewrite Forall_forall in H. apply H in Hin. discriminate Hin.
Qed.

Lemma code_ends_in_digits (code : str) :
  code_shape code ->
  exists x d, code = x ++ "."%char :: d /\ Forall (fun c => isdecimal c = true) d.
Proof.
  intros (a & b & d & -> & _ & _ & _ & _ & _ & Hd).
  exists (a ++ "."%char :: b), d. split; [|assumption].
  rewrite <- app_assoc. reflexivity.
Qed.

Lemma channel_digits (x y d e : str) :
  Forall (fun c => isdecimal c = true) d ->
  Forall (fun c => isdecimal c = true) e ->
  x ++ "."%char :: d = y ++ "*"%char :: e -> False.
Proof.
  intros Hd He Heq.
  destruct (@last_cut _ (fun c => isdecimal c = true) x y d e "."%char "*"%char
              Heq Hd He) as (_ & H & _); discriminate.
Qed.

(** A line whose only opening bracket follows a star and digits other
    than 255, as the lines of the earlier billing periods do, matches
    nothing and leaves the mapping as it is. *)
Theorem other_channel_skipped (head ds rest : str) :
  ~ In "("%char head ->
  Forall (fun c => isdecimal c = true) ds ->
  ds <> s "255" ->
  ~ In "("%char rest ->
  re_match DATABLOCK_REGEX (head ++ "*"%char :: ds ++ "("%char :: rest) = None
  /\ forall data_dict,
       parse_line data_dict (head ++ "*"%char :: ds ++ "("%char :: rest) = data_dict.
Proof.
  intros Hhead Hds Hne Hrest.
  assert (Hnone : re_match DATABLOCK_REGEX
                    (head ++ "*"%char :: ds ++ "("%char :: rest) = None).
  { unfold re_match.
    destruct (matches DATABLOCK_REGEX _ no_groups) as [|[t' g'] l] eqn:Hm;
      [reflexivity|].
    exfalso.
    assert (Hin : In (t', g') (matches DATABLOCK_REGEX
                     (head ++ "*"%char :: ds ++ "("%char :: rest) no_groups)).
    { rewrite Hm. now left. }
    apply datablock_regex_inv in Hin.
    destruct Hin as (pre & code & suf & value & Heq & _ & Hcode & Hsuf & _).
    assert (Hcut : pre ++ code ++ suf = head ++ "*"%char :: ds).
    { apply (@first_cut _ "("%char _ (value ++ ")"%char :: t') _ rest).
      - rewrite <- !app_assoc. simpl. rewrite <- Heq. reflexivity.
      - intros Hin. apply in_app_or in Hin. destruct Hin as [Hin|[Hin|Hin]].
        + now apply Hhead.
        + discriminate Hin.
        + now apply (digits_no_bracket Hds).
      - assumption. }
    destruct (code_ends_in_digits Hcode) as (x & d & -> & Hd).
    destruct Hsuf as [->| ->].
    - rewrite app_nil_r, app_assoc in Hcut.
      exact (@channel_digits _ _ _ _ Hd Hds Hcut).
    - rewrite app_assoc in Hcut.
      change (s "*255") with ("*"%char :: s "255") in Hcut.
      assert (H255 : Forall (fun c => isdecimal c = true) (s "255"))
        by (repeat constructor).
      destruct (@last_cut _ (fun c => isdecimal c = true) _ _ _ _ _ _ Hcut H255 Hds)
        as (_ & _ & H); try discriminate.
      apply Hne. now symmetry. }
  split; [assumption|]. intros data_dict. unfold parse_line. now rewrite Hnone.
Qed.

Lemma other_channel_skipped_witness :
  re_match DATABLOCK_REGEX (s "0-0:C.51.2*01(0230920104504)") = None.
Proof.
  apply (@other_channel_skipped (s "0-0:C.51.2") (s "01") (s "0230920104504)")).
  - vm_compute. intuition discriminate.
  - repeat constructor.
  - discriminate.
  - vm_compute. intuition discriminate.
Defined.

(** *** A field printed and read back *)

Lemma cat_In (r1 r2 : regex) (t t1 t' : str) (g g1 g' : groups) :
  In (t1, g1) (matches r1 t g) ->
  In (t', g') (matches r2 t1 g1) ->
  In (t', g') (matches (Cat r1 r2) t g).
Proof.
  intros H1 H2. simpl. apply in_flat_map. now exists (t1, g1).
Qed.

Lemma chr_In (c : ascii) (t : str) (g : groups) :
  In (t, g) (matches (Chr c) (c :: t) g).
Proof. simpl. rewrite Ascii.eqb_refl. now left. Qed.

Lemma plus_In (p : ascii -> bool) (w t : str) (g : groups) :
  w <> [] -> Forall (fun c => p c = true) w ->
  In (t, g) (matches (Plus p) (w ++ t) g).
Proof.
  intros Hne Hw. simpl. apply in_map_iff. exists t. split; [reflexivity|].
  now apply plus_rests_In.
Qed.

Lemma grp_In (n : nat) (r : regex) (w t : str) (g g1 : groups) :
  In (t, g1) (matches r (w ++ t) g) ->
  In (t, set_group n w g1) (matches (Grp n r) (w ++ t) g).
Proof.
  intros H. simpl. apply in_map_iff. exists (t, g1). simpl.
  now rewrite consumed_app.
Qed.

Lemma code_In (code t : str) (g : groups) :
  code_shape code -> In (t, g) (matches CODE (code ++ t) g).
Proof.
  intros (a & b & d & -> & Ha & Hpa & Hb & Hpb & Hd & Hpd). unfold CODE.
  rewrite <- app_assoc. cbn [app]. rewrite <- app_assoc. cbn [app].
  eapply cat_In; [now apply plus_In|].
  eapply cat_In; [apply chr_In|].
  eapply cat_In; [now apply plus_In|].
  eapply cat_In; [apply chr_In|].
  now apply plus_In.
Qed.

Lemma channel_In (suf t : str) (g : groups) :
  channel suf ->
  In (t, g) (matches (Opt (Cat (Chr "*") (Cat (Chr "2") (Cat (Chr "5") (Chr "5")))))
               (suf ++ t) g).
Proof.
  intros [->| ->]; cbn [matches]; apply in_or_app.
  - right. now left.
  - left. simpl. now left.
Qed.

(** The field part of the pattern matches a printed field. *)
Lemma field_In (code suf value : str) (g : groups) :
  code_shape code -> channel suf ->
  value <> [] -> Forall (fun c => dot c = true) value ->
  In ([], set_group 2 value (set_group 1 code g))
     (matches FIELD (code ++ suf ++ "("%char :: value ++ [")"%char]) g).
Proof.
  intros Hcode Hsuf Hv Hpv. unfold FIELD.
  eapply cat_In; [apply grp_In, code_In, Hcode|].
  eapply cat_In; [apply channel_In, Hsuf|].
  eapply cat_In; [apply chr_In|].
  eapply cat_In; [apply grp_In, plus_In; assumption|].
  apply chr_In.
Qed.

(** And in one way only, when neither the code nor the value holds a
    bracket. *)
Lemma field_unique (code suf value t' : str) (g g' : groups) :
  code_shape code -> ~ In "("%char code -> channel suf ->
  ~ In "("%char value -> ~ In ")"%char value ->
  In (t', g') (matches FIELD (code ++ suf ++ "("%char :: value ++ [")"%char]) g) ->
  g' = set_group 2 value (set_group 1 code g).
Proof.
  intros Hcode Hnb Hsuf Hv1 Hv2 Hin.
  apply field_inv in Hin.
  destruct Hin as (code' & suf' & value' & Heq & Hcode' & Hsuf' & _ & _ & ->).
  assert (Hcut : code' ++ suf' = code ++ suf /\
                 value' ++ ")"%char :: t' = value ++ [")"%char]).
  { apply (@first_cut _ "("%char).
    - rewrite <- !app_assoc. now rewrite <- Heq.
    - intros Hin. apply in_app_or in Hin. destruct Hin as [Hin|Hin];
        [now apply Hnb|].
      destruct Hsuf as [->| ->]; [destruct Hin|].
      simpl in Hin. intuition discriminate.
    - intros Hin. apply in_app_or in Hin. destruct Hin as [Hin|[Hin|[]]];
        [now apply Hv1 | discriminate Hin]. }
  destruct Hcut as [Hc Hvv].
  apply first_cut in Hvv; [|assumption | intros []].
  destruct Hvv as [-> _].
  assert (code' = code); [|now subst].
  destruct (code_ends_in_digits Hcode) as (x & d & Hx & Hd).
  destruct (code_ends_in_digits Hcode') as (x' & d' & Hx' & Hd').
  assert (H255 : Forall (fun c => isdecimal c = true) (s "255"))
    by (repeat constructor).
  destruct Hsuf as [->| ->], Hsuf' as [->| ->].
  - now rewrite !app_nil_r in Hc.
  - exfalso. rewrite app_nil_r, Hx in Hc.
    change (s "*255") with ("*"%char :: s "255") in Hc. symmetry in Hc.
    exact (@channel_digits _ _ _ _ Hd H255 Hc).
  - exfalso. rewrite app_nil_r, Hx' in Hc.
    change (s "*255") with ("*"%char :: s "255") in Hc.
    exact (@channel_digits _ _ _ _ Hd' H255 Hc).
  - now apply app_inv_tail in Hc.
Qed.

Lemma fourth_in {A} (l rest t : list A) (c1 c2 c3 c4 : A) :
  4 <= List.length l ->
  l ++ rest = c1 :: c2 :: c3 :: c4 :: t ->
  In c4 l.
Proof.
  destruct l as [|x1 [|x2 [|x3 [|x4 l]]]]; simpl; try lia.
  intros _ H. injection H as _ _ _ -> _. intuition.
Qed.

Lemma code_shape_length (code : str) : code_shape code -> 5 <= List.length code.
Proof.
  intros (a & b & d & -> & Ha & _ & Hb & _ & Hd & _).
  rewrite length_app. simpl. rewrite length_app. simpl.
  destruct a; [congruence|]. destruct b; [congruence|]. destruct d; [congruence|].
  simpl. lia.
Qed.

Lemma classifier_fails (code rest : str) (g : groups) :
  code_shape code -> ~ In ":"%char code ->
  matches CLASSIFIER (code ++ rest) g = [].
Proof.
  intros Hcode Hnot.
  destruct (matches CLASSIFIER _ g) as [|[t1 g1] l] eqn:Hm; [reflexivity|].
  exfalso.
  assert (Hin : In (t1, g1) (matches CLASSIFIER (code ++ rest) g)).
  { rewrite Hm. now left. }
  unfold CLASSIFIER in Hin.
  apply cat_inv in Hin. destruct Hin as (t2 & g2 & H2 & Hin).
  apply cls_inv in H2. destruct H2 as (d1 & Heq & _ & ->).
  apply cat_inv in Hin. destruct Hin as (t3 & g3 & H3 & Hin).
  apply chr_inv in H3. destruct H3 as [-> ->].
  apply cat_inv in Hin. destruct Hin as (t4 & g4 & H4 & Hin).
  apply cls_inv in H4. destruct H4 as (d2 & -> & _ & ->).
  apply chr_inv in Hin. destruct Hin as [-> ->].
  apply Hnot.
  apply (@fourth_in _ code rest t1 d1 "-"%char d2 ":"%char);
    [apply code_shape_length in Hcode; lia | exact Heq].
Qed.

Lemma classifier_passes (d1 d2 : ascii) (t : str) (g : groups) :
  isdecimal d1 = true -> isdecimal d2 = true ->
  matches CLASSIFIER (d1 :: "-"%char :: d2 :: ":"%char :: t) g = [(t, g)].
Proof.
  intros H1 H2. unfold CLASSIFIER. simpl. rewrite H1. simpl. rewrite H2.
  reflexivity.
Qed.

(** A field printed with or without its classifier and its channel
    suffix is read back as its code and its value. *)
Lemma field_line_match (pre code suf value : str) :
  classifier pre -> plain_code code -> channel suf ->
  value <> [] -> Forall (fun c => dot c = true) value ->
  ~ In "("%char value -> ~ In ")"%char value ->
  exists m,
    re_match DATABLOCK_REGEX (field_line pre code suf value) = Some m /\
    group m 1 = code /\ group m 2 = value.
Proof.
  intros Hpre (Hcode & Hnb & Hnc) Hsuf Hv Hpv Hv1 Hv2.
  set (t0 := code ++ suf ++ "("%char :: value ++ [")"%char]).
  assert (Hex := @field_In code suf value no_groups Hcode Hsuf Hv Hpv).
  fold t0 in Hex.
  assert (Hhead : exists t' l, matches FIELD t0 no_groups
                               = (t', set_group 2 value (set_group 1 code no_groups)) :: l).
  { destruct (matches FIELD t0 no_groups) as [|[t' g'] l] eqn:Hm; [destruct Hex|].
    exists t', l. f_equal. f_equal.
    apply (@field_unique code suf value t' no_groups g'); auto.
    fold t0. rewrite Hm. now left. }
  destruct Hhead as (t' & l & Hm).
  exists (set_group 2 value (set_group 1 code no_groups)).
  split; [|split; reflexivity].
  unfold re_match, field_line. fold t0. rewrite datablock_regex_split.
  fold CLASSIFIER.
  destruct Hpre as [->|(d1 & d2 & H1 & H2 & ->)].
  - change ([] ++ t0) with t0. unfold t0 at 1.
    rewrite (classifier_fails _ _ Hcode Hnc).
    cbn [flat_map app]. now rewrite Hm.
  - change ([d1; "-"%char; d2; ":"%char] ++ t0)
      with (d1 :: "-"%char :: d2 :: ":"%char :: t0).
    rewrite (@classifier_passes d1 d2 t0 no_groups H1 H2). cbn [flat_map fst snd].
    rewrite Hm. reflexivity.
Qed.

Lemma split_from_word (w : str) :
  Forall (fun c => isspace c = false) w ->
  forall word, word ++ w <> [] -> split_from word w = [word ++ w].
Proof.
  induction 1 as [|c w Hc Hw IH]; intros word Hne; simpl.
  - rewrite app_nil_r in *. destruct word; [congruence | reflexivity].
  - rewrite Hc, IH, <- app_assoc; [reflexivity|].
    rewrite <- app_assoc. exact Hne.
Qed.

Lemma isdecimal_not_space (c : ascii) : isdecimal c = true -> isspace c = false.
Proof.
  unfold isdecimal, isspace. intros H.
  apply andb_true_iff in H. destruct H as [H1 H2].
  apply N.leb_le in H1, H2. apply not_true_iff_false. intros Hs.
  rewrite !orb_true_iff, !andb_true_iff, !N.leb_le, !N.eqb_eq in Hs. lia.
Qed.

Lemma nonspace_not_space (c : ascii) : nonspace c = true -> isspace c = false.
Proof. unfold nonspace. now destruct (isspace c). Qed.

Lemma nonspace_dot (c : ascii) : nonspace c = true -> dot c = true.
Proof.
  intros H. apply nonspace_not_space in H. unfold dot.
  destruct (N.eqb_spec (N_of_ascii c) 10) as [E|E]; [|reflexivity].
  unfold isspace in H. rewrite E in H. discriminate H.
Qed.

Lemma field_line_no_space (pre code suf value : str) :
  classifier pre -> code_shape code -> channel suf ->
  Forall (fun c => nonspace c = true) value ->
  Forall (fun c => isspace c = false) (field_line pre code suf value).
Proof.
  intros Hpre (a & b & d & -> & _ & Ha & _ & Hb & _ & Hd) Hsuf Hv.
  unfold field_line.
  assert (Hns : forall l, Forall (fun c => nonspace c = true) l ->
                          Forall (fun c => isspace c = false) l).
  { intros l Hl. eapply Forall_impl; [|exact Hl]. apply nonspace_not_space. }
  assert (Hdg : forall l, Forall (fun c => isdecimal c = true) l ->
                          Forall (fun c => isspace c = false) l).
  { intros l Hl. eapply Forall_impl; [|exact Hl]. apply isdecimal_not_space. }
  repeat (apply Forall_app; split); auto.
  - destruct Hpre as [->|(d1 & d2 & H1 & H2 & ->)]; [constructor|].
    repeat constructor; now apply isdecimal_not_space.
  - constructor; [reflexivity|]. apply Forall_app. split; [now apply Hns|].
    constructor; [reflexivity | now apply Hdg].
  - destruct Hsuf as [->| ->]; repeat constructor.
  - constructor; [reflexivity|]. apply Forall_app. split; [now apply Hns|].
    repeat constructor.
Qed.

(** A field printed with or without its classifier and its channel
    suffix, alone in a payload, gives the mapping of its code to its
    value: neither the classifier nor the suffix is part of the code. *)
Theorem field_line_parsed (pre code suf value : str) :
  classifier pre -> plain_code code -> channel suf ->
  value <> [] -> Forall (fun c => nonspace c = true) value ->
  ~ In "("%char value -> ~ In ")"%char value ->
  datablock_to_dict (field_line pre code suf value) = [(code, value)].
Proof.
  intros Hpre Hcode Hsuf Hv Hpv Hv1 Hv2.
  assert (Hdot : Forall (fun c => dot c = true) value).
  { eapply Forall_impl; [|exact Hpv]. apply nonspace_dot. }
  destruct (field_line_match Hpre Hcode Hsuf Hv Hdot Hv1 Hv2) as (m & Hm & H1 & H2).
  unfold datablock_to_dict, split.
  rewrite (@split_from_word (field_line pre code suf value)); simpl.
  - unfold parse_line. rewrite Hm, H1, H2. reflexivity.
  - apply field_line_no_space; auto. apply Hcode.
  - unfold field_line. destruct pre; [|discriminate].
    destruct Hcode as ((a & b & d & -> & Ha & _) & _).
    destruct a; [congruence | discriminate].
Qed.

Lemma field_line_parsed_witness :
  datablock_to_dict (s "1-0:1.8.0*255(0692930.505*kWh)")
  = [(s "1.8.0", s "0692930.505*kWh")]
  /\ datablock_to_dict (s "C.51.2(0230920104504)")
     = [(s "C.51.2", s "0230920104504")].
Proof.
  split.
  - apply (@field_line_parsed (s "1-0:") (s "1.8.0") (s "*255") (s "0692930.505*kWh")).
    + right. exists "1"%char, "0"%char. repeat split.
    + split; [|split; vm_compute; intuition discriminate].
      exists (s "1"), (s "8"), (s "0"). repeat split; try discriminate;
        repeat constructor.
    + now right.
    + discriminate.
    + repeat constructor.
    + vm_compute. intuition discriminate.
    + vm_compute. intuition discriminate.
  - apply (@field_line_parsed [] (s "C.51.2") [] (s "0230920104504")).
    + now left.
    + split; [|split; vm_compute; intuition discriminate].
      exists (s "C"), (s "51"), (s "2"). repeat split; try discriminate;
        repeat constructor.
    + now left.
    + discriminate.
    + repeat constructor.
    + vm_compute. intuition discriminate.
    + vm_compute. intuition discriminate.
Defined.

(** *** Payloads put together *)

Lemma split_from_app (a b : str) (c : ascii) :
  isspace c = true ->
  forall word, split_from word (a ++ c :: b) = split_from word a ++ split b.
Proof.
  intros Hc. induction a as [|x a IH]; intros word; simpl.
  - rewrite Hc. now destruct word.
  - destruct (isspace x); [destruct word|]; simpl; now rewrite IH.
Qed.

Lemma assign_all_get (c : str) (pairs : list (str * str)) :
  forall d,
    (~ In c (map fst pairs) /\ dict_get c (assign_all d pairs) = dict_get c d)
    \/ exists v, forall d', dict_get c (assign_all d' pairs) = Some v.
Proof.
  induction pairs as [|[k v] pairs IH]; intros d.
  - left. split; [intros [] | reflexivity].
  - destruct (IH (dict_set k v d)) as [[Hnot Hget]|[v' Hv']].
    + destruct (str_eqb k c) eqn:Hk.
      * right. exists v. intros d'. unfold assign_all. simpl.
        fold (assign_all (dict_set k v d') pairs).
        rewrite assign_all_get_other by assumption.
        now rewrite dict_get_set, Hk.
      * left. split.
        -- simpl. intros [H|H]; [|contradiction].
           subst k. now rewrite str_eqb_refl in Hk.
        -- unfold assign_all in *. simpl. rewrite Hget, dict_get_set, Hk.
           reflexivity.
    + right. exists v'. intros d'. unfold assign_all. simpl. apply Hv'.
Qed.

(** Two payloads with whitespace between them give the mapping of the
    first updated by the fields of the second: a code of the second
    payload takes its value there, every other code keeps the value the
    first payload gave it. *)
Theorem payloads_joined (a b : str) (c : ascii) :
  isspace c = true ->
  datablock_to_dict (a ++ c :: b)
  = assign_all (datablock_to_dict a) (parsed_pairs (split b))
  /\ forall code,
       dict_get code (datablock_to_dict (a ++ c :: b))
       = match dict_get code (datablock_to_dict b) with
         | Some v => Some v
         | None => dict_get code (datablock_to_dict a)
         end.
Proof.
  intros Hc.
  assert (Hjoin : datablock_to_dict (a ++ c :: b)
                  = assign_all (datablock_to_dict a) (parsed_pairs (split b))).
  { unfold datablock_to_dict, split. rewrite (@split_from_app a b c Hc).
    rewrite fold_left_app. apply fold_parse_line. }
  split; [assumption|]. intros code. rewrite Hjoin.
  unfold datablock_to_dict at 2. rewrite fold_parse_line.
  destruct (assign_all_get code (parsed_pairs (split b)) (datablock_to_dict a))
    as [[Hnot Hget]|[v Hv]].
  - rewrite Hget, assign_all_get_other by assumption. reflexivity.
  - now rewrite !Hv.
Qed.

Lemma payloads_joined_witness :
  dict_get (s "1.8.0")
    (datablock_to_dict (s "1.8.0(1)" ++ " "%char :: s "2.8.0(5)"))
  = match dict_get (s "1.8.0") (datablock_to_dict (s "2.8.0(5)")) with
    | Some v => Some v
    | None => dict_get (s "1.8.0") (datablock_to_dict (s "1.8.0(1)"))
    end.
Proof.
  exact (proj2 (@payloads_joined (s "1.8.0(1)") (s "2.8.0(5)") " "%char eq_refl)
               (s "1.8.0")).
Defined.

End ParserMoreFacts.

(** ** More on the scheduler *)

Section SchedulerMoreFacts.

Variable W : Type.
Variable T : Type.
Variable time : Time W T.

Local Abbreviation Processor := (Processor W T).
Local Abbreviation Scheduler := (Scheduler W T).
Local Abbreviation St := (St W T).
Local Abbreviation event := (event T).


(** Whatever leaves [execute] as an exception is not an [Exception]:
    every failure of the reader or of a processor that [except
    Exception] catches stays inside. *)
Theorem execute_raises_no_exception (self : Scheduler) (timestamp : T)
        (st st' : St) (e : exn) :
  execute time self timestamp st = (Raise e, st') ->
  isinstance_Exception e = false.
Proof.
  rewrite execute_run.
  destruct (time_time time (world st)) as [t1 w1].
  destruct (mt174_read self w1) as [[data|e0] w2].
  - destruct (time_time time w2) as [t2 w3].
    destruct (for_each _ _ _) as [[u|e0] st1] eqn:Hf; [discriminate|].
    apply for_each_leaves in Hf. destruct Hf as [He _].
    rewrite reraise_or_log_run, (He e0 eq_refl).
    intros H. injection H as <- _. exact (He e0 eq_refl).
  - rewrite reraise_or_log_run. destruct (isinstance_Exception e0) eqn:He0;
      [discriminate|].
    intros H. now injection H as <- _.
Qed.



End SchedulerMoreFacts.

Module SchedulerMoreOnMeter.
Import MT174 MT174Spec MT174Facts Samples SchedulerMore.


Lemma execute_raises_no_exception_witness :
  isinstance_Exception KeyboardInterrupt = false.
Proof.
  exact (@execute_raises_no_exception Serial Z steady_time sample_scheduler 100%Z
           (at_start interrupted_port) _ KeyboardInterrupt eq_refl).
Defined.


Lemma meter_failure_skips_cycle_witness :
  exists st',
    execute steady_time sample_scheduler 100%Z (at_start (port_with []))
    = (Ok tt, st') /\
    trace st'
    = [EvRead (Raise (Exception "Empty string instead of identification"));
       EvLog "exception" "Error in meter reader"].
Proof.
  apply (@SchedulerOnMeter.meter_failure_skips_cycle Z steady_time
           [publisher; recorder] 60%Z 100%Z (at_start (port_with []))
           (Exception "Empty string instead of identification")).
  - constructor.
  - intros e0 H. discriminate H.
  - reflexivity.
Defined.

End SchedulerMoreOnMeter.
